(** * Alpha-beta search with iterative deepening (my_custom_player.py)

    A shallow embedding of [AlphaBetaAgent] from
    [Projects/3_Adversarial Search/my_custom_player.py]: the two-mode
    heuristic, the depth-limited alpha-beta recursion ([min_value],
    [max_value]), the root decision ([minimax_decision]) with its random
    fallback, and the iterative-deepening generator ([compute]).

    The game engine ([isolation]) is external to the module: it is taken
    as an interface ([GameState]) and every result below holds for every
    implementation of it. *)

From Stdlib Require Import ZArith QArith List Bool Lia.
Import ListNotations.

Set Implicit Arguments.
Open Scope Z_scope.

(** ** Scores

    The numbers that flow through the search are Python ints (the
    heuristic's differences of list lengths) and the two floats
    [float("-inf")] and [float("inf")] that the code uses as sentinels
    (and that a game's [utility] reports for a lost or won game). *)

Inductive score : Type :=
| NegInf
| Fin (z : Z)
| PosInf.

Module Score.

(** [a <= b] on Python numbers. *)
Definition leb (a b : score) : bool :=
  match a, b with
  | NegInf, _ => true
  | _, PosInf => true
  | Fin x, Fin y => x <=? y
  | _, _ => false
  end.

(** [a < b]. *)
Definition ltb (a b : score) : bool :=
  match a, b with
  | NegInf, NegInf => false
  | NegInf, _ => true
  | Fin x, Fin y => x <? y
  | Fin _, PosInf => true
  | _, _ => false
  end.

Definition le (a b : score) : Prop :=
  match a, b with
  | NegInf, _ => True
  | _, PosInf => True
  | Fin x, Fin y => x <= y
  | _, _ => False
  end.

Definition lt (a b : score) : Prop :=
  match a, b with
  | NegInf, NegInf => False
  | NegInf, _ => True
  | Fin x, Fin y => x < y
  | Fin _, PosInf => True
  | _, _ => False
  end.

(** Python's [max(a, b)]: the first argument unless the second is
    strictly greater. *)
Definition max (a b : score) : score := if ltb a b then b else a.

(** Python's [min(a, b)]: the first argument unless the second is
    strictly smaller. *)
Definition min (a b : score) : score := if ltb b a then b else a.

End Score.

(** ** Exceptions

    The two ways the module can raise: comparing [None] with a number
    ([TypeError]) and [random.choice] on an empty list ([IndexError]). *)

Inductive exn : Type :=
| TypeError
| IndexError.

Inductive res (A : Type) : Type :=
| Ok (a : A)
| Raise (e : exn).

Arguments Ok {A} a.
Arguments Raise {A} e.

Definition bind {A B : Type} (c : res A) (k : A -> res B) : res B :=
  match c with
  | Ok a => k a
  | Raise e => Raise e
  end.

Notation "x <- c ;; k" := (bind c (fun x => k))
  (at level 61, c at next level, right associativity).

(** A value returned by [heuristic], [min_value] or [max_value]: a number,
    or Python's [None]. *)
Definition pyval : Type := option score.

(** Using a returned value as an operand of [min], [max], [<=], [>=] or
    [>]: [None] is not comparable with a number. *)
Definition as_number (v : pyval) : res score :=
  match v with
  | Some x => Ok x
  | None => Raise TypeError
  end.

(** [len(l)] *)
Definition len {A : Type} (l : list A) : Z := Z.of_nat (length l).

(** [random.choice(l)], with the draw [rnd] made explicit: an index into
    a non-empty list, [IndexError] on an empty one. *)
Definition random_choice {A : Type} (rnd : nat) (l : list A) : res A :=
  match l with
  | [] => Raise IndexError
  | x :: _ => Ok (nth (rnd mod length l) l x)
  end.

(** [range(lo, hi)] *)
Definition range (lo hi : Z) : list Z :=
  map (fun i => lo + Z.of_nat i) (seq 0 (Z.to_nat (hi - lo))).

(** ** The game engine's interface

    What the module uses of a [gameState]: [actions()], [result(action)],
    [terminal_test()], [utility(player)], [locs[player]],
    [liberties(loc)] and [ply_count].  [actions()] returns a list, so the
    guard [actions != None] of [min_value] and [max_value] always holds.
    [ply_count] is a Python number, only ever divided by [BOARD_SIZE]
    and compared with [0.5]; it is kept as a rational, for which that
    comparison has the outcome of the float one. *)

Inductive player : Type := Player0 | Player1.

Class GameState (State Action Loc Cell : Type) : Type := {
  actions : State -> list Action;
  result : State -> Action -> State;
  terminal_test : State -> bool;
  utility : State -> player -> score;
  locs : State -> player -> Loc;
  liberties : State -> Loc -> list Cell;
  ply_count : State -> Q
}.

(** [BOARD_SIZE = 99]: the number of cells, 11 * 9. *)
Definition BOARD_SIZE : Z := 99.

(** [a < b] on rationals. *)
Definition Qlt_bool (a b : Q) : bool := negb (Qle_bool b a).

(** ** The agent *)

Record AlphaBetaAgent : Type := {
  agent_player : player;
  opponent_player : player;
  h_type : Z
}.

(** [AlphaBetaAgent.__init__]: the three fields are stored as given. *)
Definition init (agent_player opponent_player : player) (h_type : Z)
  : AlphaBetaAgent :=
  {| agent_player := agent_player;
     opponent_player := opponent_player;
     h_type := h_type |}.

Section Agent.

Context {State Action Loc Cell : Type}.
Context {G : GameState State Action Loc Cell}.
Variable self : AlphaBetaAgent.

(** [AlphaBetaAgent.heuristic] *)
Definition heuristic (gameState : State) : pyval :=
  let agent_loc := locs gameState (agent_player self) in
  let opponent_loc := locs gameState (opponent_player self) in
  let agent_liberties := liberties gameState agent_loc in
  let opponent_liberties := liberties gameState opponent_loc in
  if h_type self =? 0 then
    Some (Fin (len agent_liberties - len opponent_liberties))
  else if h_type self =? 1 then
    let m := (ply_count gameState / inject_Z BOARD_SIZE)%Q in
    if Qlt_bool m (1 # 2) then
      Some (Fin (len agent_liberties - 2 * len opponent_liberties))
    else
      Some (Fin (2 * len agent_liberties - len opponent_liberties))
  else None.

(** The loop of [min_value], from a given [value] and [beta]; [child]
    is the recursive call on a successor. *)
Fixpoint min_loop (child : State -> score -> score -> res pyval)
    (gameState : State) (acts : list Action)
    (value alpha beta : score) : res pyval :=
  match acts with
  | [] => Ok (Some value)
  | action :: rest =>
      r <- child (result gameState action) alpha beta ;;
      x <- as_number r ;;
      let value := Score.min value x in
      if Score.leb value alpha then Ok (Some value)
      else min_loop child gameState rest value alpha (Score.min beta value)
  end.

(** The loop of [max_value]. *)
Fixpoint max_loop (child : State -> score -> score -> res pyval)
    (gameState : State) (acts : list Action)
    (value alpha beta : score) : res pyval :=
  match acts with
  | [] => Ok (Some value)
  | action :: rest =>
      r <- child (result gameState action) alpha beta ;;
      x <- as_number r ;;
      let value := Score.max value x in
      if Score.leb beta value then Ok (Some value)
      else max_loop child gameState rest value (Score.max alpha value) beta
  end.

(** [min_value] and [max_value] by recursion on the remaining depth:
    [n] is [depth] when positive and [0] when [depth <= 0]. *)
Fixpoint min_value_at (n : nat) (gameState : State) (alpha beta : score)
  : res pyval :=
  if terminal_test gameState then
    Ok (Some (utility gameState (agent_player self)))
  else
    match n with
    | O => Ok (heuristic gameState)
    | S n' =>
        min_loop (max_value_at n') gameState (actions gameState)
          PosInf alpha beta
    end
with max_value_at (n : nat) (gameState : State) (alpha beta : score)
  : res pyval :=
  if terminal_test gameState then
    Ok (Some (utility gameState (agent_player self)))
  else
    match n with
    | O => Ok (heuristic gameState)
    | S n' =>
        max_loop (min_value_at n') gameState (actions gameState)
          NegInf alpha beta
    end.

(** [AlphaBetaAgent.min_value] *)
Definition min_value (gameState : State) (alpha beta : score) (depth : Z)
  : res pyval :=
  min_value_at (Z.to_nat depth) gameState alpha beta.

(** [AlphaBetaAgent.max_value] *)
Definition max_value (gameState : State) (alpha beta : score) (depth : Z)
  : res pyval :=
  max_value_at (Z.to_nat depth) gameState alpha beta.

(** The loop of [minimax_decision] over the candidate moves: the final
    [best_score] and [best_move] ([None] when never assigned). *)
Fixpoint root_loop (child : State -> score -> score -> res pyval)
    (gameState : State) (acts : list Action)
    (alpha beta best_score : score) (best_move : option Action)
  : res (score * option Action) :=
  match acts with
  | [] => Ok (best_score, best_move)
  | action :: rest =>
      r <- child (result gameState action) alpha beta ;;
      value <- as_number r ;;
      let alpha := Score.max alpha value in
      if Score.ltb best_score value then
        root_loop child gameState rest alpha beta value (Some action)
      else
        root_loop child gameState rest alpha beta best_score best_move
  end.

(** [minimax_decision] up to the end of its [for] loop. *)
Definition root_search (gameState : State) (depth : Z)
  : res (score * option Action) :=
  let alpha := NegInf in
  let beta := PosInf in
  let best_score := NegInf in
  let best_move := None in
  root_loop (fun s a b => min_value s a b (depth - 1))
    gameState (actions gameState) alpha beta best_score best_move.

(** [AlphaBetaAgent.minimax_decision]; [rnd] is the draw of
    [random.choice], used only by the fallback. *)
Definition minimax_decision (rnd : nat) (gameState : State) (depth : Z)
  : res Action :=
  found <- root_search gameState depth ;;
  match snd found with
  | None => random_choice rnd (actions gameState)
  | Some best_move => Ok best_move
  end.

(** The generator [compute] run over a list of depths: the moves
    yielded, in order, and the exception that ended the run, if any. *)
Fixpoint compute_over (rnd : Z -> nat) (gameState : State)
    (depths : list Z) : list Action * option exn :=
  match depths with
  | [] => ([], None)
  | depth :: rest =>
      match minimax_decision (rnd depth) gameState depth with
      | Raise e => ([], Some e)
      | Ok move =>
          let (moves, status) := compute_over rnd gameState rest in
          (move :: moves, status)
      end
  end.

(** [AlphaBetaAgent.compute], consumed to its end; [rnd depth] is the
    draw available to the search at [depth]. *)
Definition compute (rnd : Z -> nat) (gameState : State) (max_depth : Z)
  : list Action * option exn :=
  compute_over rnd gameState (range 1 (max_depth + 1)).

End Agent.

(** ** The search without pruning

    The reference the pruned search is compared with, written from the
    design document: an evaluator with two named strategies, and plain
    depth-limited minimax, in which every legal move of every expanded
    node is examined. *)

Module Unpruned.

Inductive heuristicMode : Type := baseline | phase_adaptive.

(** The numeric flag that selects a strategy in the constructor. *)
Definition flag (mode : heuristicMode) : Z :=
  match mode with
  | baseline => 0
  | phase_adaptive => 1
  end.

Section Minimax.

Context {State Action Loc Cell : Type}.
Context {G : GameState State Action Loc Cell}.
Variable self : AlphaBetaAgent.
Variable mode : heuristicMode.

Definition agentMobility (position : State) : Z :=
  len (liberties position (locs position (agent_player self))).

Definition opponentMobility (position : State) : Z :=
  len (liberties position (locs position (opponent_player self))).

(** The board-fill ratio, moves played so far over total cells. *)
Definition fillRatio (position : State) : Q :=
  (ply_count position / inject_Z BOARD_SIZE)%Q.

Definition evaluate (position : State) : score :=
  match mode with
  | baseline =>
      Fin (agentMobility position - opponentMobility position)
  | phase_adaptive =>
      if Qlt_bool (fillRatio position) (1 # 2) then
        Fin (agentMobility position - 2 * opponentMobility position)
      else
        Fin (2 * agentMobility position - opponentMobility position)
  end.

(** Minimizing and maximizing steps with [n] plies left: the utility
    at a terminal position, the evaluator at the horizon, otherwise
    the minimum (maximum) over all legal moves, from the sentinel
    plus (minus) infinity. *)
Fixpoint minValue (n : nat) (position : State) : score :=
  if terminal_test position then
    utility position (agent_player self)
  else
    match n with
    | O => evaluate position
    | S n' =>
        fold_left
          (fun value move =>
             Score.min value (maxValue n' (result position move)))
          (actions position) PosInf
    end
with maxValue (n : nat) (position : State) : score :=
  if terminal_test position then
    utility position (agent_player self)
  else
    match n with
    | O => evaluate position
    | S n' =>
        fold_left
          (fun value move =>
             Score.max value (minValue n' (result position move)))
          (actions position) NegInf
    end.

(** The score of one candidate move of the root at depth limit
    [depthLimit]. *)
Definition moveScore (position : State) (depthLimit : Z)
    (move : Action) : score :=
  minValue (Z.to_nat (depthLimit - 1)) (result position move).

(** The running best score of the root over a list of candidates. *)
Definition bestOver (value_of : Action -> score)
    (moves : list Action) (best : score) : score :=
  fold_left (fun best move => Score.max best (value_of move)) moves best.

(** The root score of the full search. *)
Definition searchScore (position : State) (depthLimit : Z) : score :=
  bestOver (moveScore position depthLimit) (actions position) NegInf.

(** The move recorded along [bestOver]: replaced only by a strictly
    better candidate. *)
Fixpoint recorded (value_of : Action -> score) (moves : list Action)
    (best : score) (best_move : option Action) : option Action :=
  match moves with
  | [] => best_move
  | move :: rest =>
      if Score.ltb best (value_of move) then
        recorded value_of rest (value_of move) (Some move)
      else
        recorded value_of rest best best_move
  end.

End Minimax.

End Unpruned.

(** ** Scripted positions

    Synthetic game trees with a scripted engine, to run the search on:
    a node carries its terminal flag, its utility, the two mobilities,
    its ply count and its successors; the legal moves of a node are the
    indices of its successors. *)

Module Scripted.

#[warnings="-register-all"] Inductive position : Type :=
| Node (terminal : bool) (outcome : score) (agent_moves opponent_moves : nat)
       (ply : Q) (successors : list position).

Definition successors_of (p : position) : list position :=
  match p with Node _ _ _ _ _ l => l end.

#[global] Instance engine : GameState position nat nat unit := {
  actions p := seq 0 (length (successors_of p));
  result p i := nth i (successors_of p) p;
  terminal_test p := match p with Node t _ _ _ _ _ => t end;
  utility p _ := match p with Node _ u _ _ _ _ => u end;
  locs p who :=
    match p, who with
    | Node _ _ a _ _ _, Player0 => a
    | Node _ _ _ o _ _, Player1 => o
    end;
  liberties _ loc := repeat tt loc;
  ply_count p := match p with Node _ _ _ _ q _ => q end
}.

(** A finished game, lost (won) by the agent. *)
Definition lost : position := Node true NegInf 0 3 10 [].
Definition won : position := Node true PosInf 3 0 10 [].

(** A horizon position with the given mobilities and ply count. *)
Definition leaf (a o : nat) (ply : Q) : position := Node false (Fin 0) a o ply [].

(** An inner position with the given successors. *)
Definition inner (l : list position) : position := Node false (Fin 0) 2 2 4 l.

(** Every move loses at once. *)
Definition doomed : position := inner [lost; lost].

(** A non-terminal position without a legal move. *)
Definition stuck : position := inner [].

(** Two moves of equal score, then a better one, then its equal. *)
Definition tied : position :=
  inner [leaf 4 3 10; leaf 3 2 10; leaf 5 2 10; leaf 6 3 10].

(** A two-ply tree on which the second subtree is cut off. *)
Definition pruned : position :=
  inner [inner [leaf 5 2 10; leaf 6 2 10];
         inner [leaf 3 2 10; leaf 9 2 10];
         inner [leaf 8 2 10; leaf 7 2 10]].

(** No terminal position in sight, yet the only line of play runs
    into a position without a move. *)
Definition cornered : position := inner [inner [stuck]].

(** Horizon positions with mobilities 5 and 3 at fill ratios 0.3 and
    0.7 of the 99 cells. *)
Definition early : position := leaf 5 3 (297 # 10).
Definition late : position := leaf 5 3 (693 # 10).

Definition benchmark : AlphaBetaAgent := init Player0 Player1 0.
Definition custom : AlphaBetaAgent := init Player0 Player1 1.
Definition unchecked : AlphaBetaAgent := init Player0 Player1 2.

End Scripted.

(** ** What a pruned value says about the full value

    A value [v] returned under the window [(alpha, beta)] brackets the
    full minimax value [m]: below [beta] it is an upper bound, above
    [alpha] a lower bound, so strictly inside the window it is exact. *)

Definition bracket (v m alpha beta : score) : Prop :=
  (Score.lt v beta -> Score.le m v) /\ (Score.lt alpha v -> Score.le v m).

(** A recursive call [child] that returns a number bracketing [full]. *)
Definition sound {State : Type}
    (child : State -> score -> score -> res pyval)
    (full : State -> score) : Prop :=
  forall s alpha beta,
    exists v, child s alpha beta = Ok (Some v) /\ bracket v (full s) alpha beta.

(** [a] is the earliest move of [moves] among those of best score:
    it attains the best score and every move before it scores strictly
    less. *)
Definition earliest_best {Action : Type} (value_of : Action -> score)
    (moves : list Action) (a : Action) : Prop :=
  exists before after,
    moves = before ++ a :: after
    /\ value_of a = Unpruned.bestOver value_of moves NegInf
    /\ forall b, In b before -> Score.lt (value_of b) (value_of a).

(** ** The player

    [CustomPlayer.get_action]: [player_id] comes from the harness, and
    the moves handed to [self.queue.put] are kept in the order of the
    calls. *)

(** [1 - player_id] on the two player ids. *)
Definition other (player_id : player) : player :=
  match player_id with
  | Player0 => Player1
  | Player1 => Player0
  end.

(** [CustomPlayer.get_action], run until [compute] is exhausted: the
    moves put on the queue, and the exception that ended the run, if
    any. *)
Definition get_action {State Action Loc Cell : Type}
    {G : GameState State Action Loc Cell}
    (player_id : player) (rnd : Z -> nat) (state : State)
  : list Action * option exn :=
  let agent_player := player_id in
  let opponent_player := other player_id in
  let player := init agent_player opponent_player 1 in
  compute player rnd state 100.

(** ** Shapes of game trees *)

(** Every line of play from [s] ends in a terminal position, or in a
    position without a move, within [n] plies: a search of depth [n]
    never reaches its horizon. *)
Fixpoint decided {State Action Loc Cell : Type}
    {G : GameState State Action Loc Cell} (n : nat) (s : State) : bool :=
  if terminal_test s then true
  else
    match n with
    | O => false
    | S n' => forallb (fun a => decided n' (result s a)) (actions s)
    end.

(** The line of play that takes the first legal move [n] times from [s]
    exists and meets no terminal position, [s] and its end included. *)
Fixpoint open_line {State Action Loc Cell : Type}
    {G : GameState State Action Loc Cell} (n : nat) (s : State) : bool :=
  negb (terminal_test s)
  && match n with
     | O => true
     | S n' =>
         match actions s with
         | [] => false
         | a :: _ => open_line n' (result s a)
         end
     end.

(** ** More scripted positions *)

Module Endings.

Import Scripted.

(** The second move wins at once. *)
Definition winning : position := inner [leaf 4 3 10; won; leaf 9 0 10].

(** The first move leaves the opponent without a move in a position
    that is not terminal. *)
Definition trapping : position := inner [stuck; leaf 6 1 10].

(** Every line ends within two plies. *)
Definition endgame : position := inner [inner [lost; won]; inner [won]; lost].

End Endings.

(** ** Order facts on scores *)

Ltac score_step :=
  match goal with
  | |- context [(?x <? ?y)] => destruct (Z.ltb_spec x y)
  | H : context [(?x <? ?y)] |- _ => destruct (Z.ltb_spec x y)
  | |- context [(?x <=? ?y)] => destruct (Z.leb_spec x y)
  | H : context [(?x <=? ?y)] |- _ => destruct (Z.leb_spec x y)
  | |- context [(?x =? ?y)] => destruct (Z.eqb_spec x y)
  | H : context [(?x =? ?y)] |- _ => destruct (Z.eqb_spec x y)
  end;
  cbn [Score.le Score.lt Score.ltb Score.leb] in *.

Ltac score_cases :=
  unfold bracket, Score.min, Score.max in *;
  repeat match goal with s : score |- _ => destruct s end;
  cbn [Score.le Score.lt Score.ltb Score.leb] in *;
  repeat score_step;
  repeat match goal with
    | H : Fin _ = Fin _ |- _ => injection H as H
    end;
  try solve [ discriminate | congruence | tauto | lia
            | f_equal; lia | intuition (discriminate || lia) ].

Module ScoreFacts.

Lemma leb_le a b : Score.leb a b = true <-> Score.le a b.
Proof. split; intro; score_cases. Qed.

Lemma ltb_lt a b : Score.ltb a b = true <-> Score.lt a b.
Proof. split; intro; score_cases. Qed.

Lemma leb_gt a b : Score.leb a b = false <-> Score.lt b a.
Proof. split; intro; score_cases. Qed.

Lemma ltb_ge a b : Score.ltb a b = false <-> Score.le b a.
Proof. split; intro; score_cases. Qed.

Lemma le_refl a : Score.le a a.
Proof. score_cases. Qed.

Lemma le_trans a b c : Score.le a b -> Score.le b c -> Score.le a c.
Proof. intros; score_cases. Qed.

Lemma lt_le_trans a b c : Score.lt a b -> Score.le b c -> Score.lt a c.
Proof. intros; score_cases. Qed.

Lemma le_lt_trans a b c : Score.le a b -> Score.lt b c -> Score.lt a c.
Proof. intros; score_cases. Qed.

Lemma lt_le a b : Score.lt a b -> Score.le a b.
Proof. intros; score_cases. Qed.

Lemma le_NegInf a : Score.le a NegInf -> a = NegInf.
Proof. intros; score_cases. Qed.

Lemma min_le_l a b : Score.le (Score.min a b) a.
Proof. score_cases. Qed.

Lemma max_ge_l a b : Score.le a (Score.max a b).
Proof. score_cases. Qed.

Lemma min_PosInf_r b : Score.min b PosInf = b.
Proof. score_cases. Qed.

Lemma max_NegInf_r a : Score.max a NegInf = a.
Proof. score_cases. Qed.

(** [beta = min(beta, value)] after two rounds is [min] of the
    original [beta] and the current [value]. *)
Lemma min_tighten beta value x :
  Score.min (Score.min beta value) (Score.min value x)
  = Score.min beta (Score.min value x).
Proof. score_cases. Qed.

Lemma max_tighten alpha value x :
  Score.max (Score.max alpha value) (Score.max value x)
  = Score.max alpha (Score.max value x).
Proof. score_cases. Qed.

End ScoreFacts.

(** ** One round of each loop keeps the bracket *)

Module Window.

Lemma exact v : forall alpha beta, bracket v v alpha beta.
Proof. intros; split; intros _; apply ScoreFacts.le_refl. Qed.

(** A round of the minimizing loop: the running [value] brackets the
    running full minimum, under the original window. *)
Lemma min_round value mcur x mx alpha beta :
  bracket value mcur alpha beta ->
  bracket x mx alpha (Score.min beta value) ->
  bracket (Score.min value x) (Score.min mcur mx) alpha beta.
Proof. intros [? ?] [? ?]; score_cases. Qed.

Lemma max_round value mcur x mx alpha beta :
  bracket value mcur alpha beta ->
  bracket x mx (Score.max alpha value) beta ->
  bracket (Score.max value x) (Score.max mcur mx) alpha beta.
Proof. intros [? ?] [? ?]; score_cases. Qed.

(** After a cut-off at [v <= alpha], [v] stays an upper bound of any
    smaller full value. *)
Lemma cut_low v m m' alpha beta :
  bracket v m alpha beta -> Score.le v alpha -> Score.le m' m ->
  bracket v m' alpha beta.
Proof. intros [? ?] ? ?; score_cases. Qed.

Lemma cut_high v m m' alpha beta :
  bracket v m alpha beta -> Score.le beta v -> Score.le m m' ->
  bracket v m' alpha beta.
Proof. intros [? ?] ? ?; score_cases. Qed.

(** At the root the window is [(best, +inf)]: the test
    [value > best_score] decides as on the full value, and a value
    that passes it is the full value. *)
Lemma root_test v m best :
  bracket v m best PosInf -> Score.ltb best v = Score.ltb best m.
Proof. intros [? ?]; score_cases. Qed.

Lemma root_exact v m best :
  bracket v m best PosInf -> Score.ltb best v = true -> v = m.
Proof. intros [? ?] ?; score_cases. Qed.

Lemma root_alpha v m best :
  bracket v m best PosInf ->
  Score.max best v = if Score.ltb best m then m else best.
Proof. intros [? ?]; score_cases. Qed.

End Window.

(** ** The pruned recursion against the full one *)

Section Soundness.

Context {State Action Loc Cell : Type}.
Context {G : GameState State Action Loc Cell}.
Variable self : AlphaBetaAgent.
Variable mode : Unpruned.heuristicMode.
Hypothesis Hmode : h_type self = Unpruned.flag mode.

(** In either mode the heuristic returns the evaluator's number. *)
Lemma heuristic_evaluate (s : State) :
  heuristic self s = Some (Unpruned.evaluate self mode s).
Proof.
  unfold heuristic, Unpruned.evaluate, Unpruned.fillRatio,
    Unpruned.agentMobility, Unpruned.opponentMobility.
  rewrite Hmode. destruct mode; cbn [Unpruned.flag Z.eqb Pos.eqb].
  - reflexivity.
  - destruct (Qlt_bool _ _); reflexivity.
Qed.

Lemma fold_min_le (f : Action -> score) (l : list Action) :
  forall init,
    Score.le (fold_left (fun value move => Score.min value (f move)) l init)
      init.
Proof.
  induction l as [|a l IH]; intros init; cbn [fold_left].
  - apply ScoreFacts.le_refl.
  - eapply ScoreFacts.le_trans; [apply IH | apply ScoreFacts.min_le_l].
Qed.

Lemma fold_max_ge (f : Action -> score) (l : list Action) :
  forall init,
    Score.le init
      (fold_left (fun value move => Score.max value (f move)) l init).
Proof.
  induction l as [|a l IH]; intros init; cbn [fold_left].
  - apply ScoreFacts.le_refl.
  - eapply ScoreFacts.le_trans; [apply ScoreFacts.max_ge_l | apply IH].
Qed.

Lemma min_loop_sound child (full : State -> score) (s : State) :
  sound child full ->
  forall acts value mcur alpha beta,
    bracket value mcur alpha beta ->
    exists v,
      min_loop child s acts value alpha (Score.min beta value) = Ok (Some v)
      /\ bracket v
           (fold_left
              (fun value move => Score.min value (full (result s move)))
              acts mcur)
           alpha beta.
Proof.
  intros Hchild acts.
  induction acts as [|a rest IH]; intros value mcur alpha beta Hb;
    cbn [min_loop fold_left].
  - exists value. split; [reflexivity | exact Hb].
  - destruct (Hchild (result s a) alpha (Score.min beta value))
      as (x & Ex & Bx).
    rewrite Ex. cbn [bind as_number].
    pose proof (Window.min_round Hb Bx) as Hround.
    destruct (Score.leb (Score.min value x) alpha) eqn:Hcut.
    + exists (Score.min value x). split; [reflexivity|].
      apply Window.cut_low with (m := Score.min mcur (full (result s a))).
      * exact Hround.
      * apply ScoreFacts.leb_le; exact Hcut.
      * apply fold_min_le.
    + rewrite ScoreFacts.min_tighten. apply IH. exact Hround.
Qed.

Lemma max_loop_sound child (full : State -> score) (s : State) :
  sound child full ->
  forall acts value mcur alpha beta,
    bracket value mcur alpha beta ->
    exists v,
      max_loop child s acts value (Score.max alpha value) beta = Ok (Some v)
      /\ bracket v
           (fold_left
              (fun value move => Score.max value (full (result s move)))
              acts mcur)
           alpha beta.
Proof.
  intros Hchild acts.
  induction acts as [|a rest IH]; intros value mcur alpha beta Hb;
    cbn [max_loop fold_left].
  - exists value. split; [reflexivity | exact Hb].
  - destruct (Hchild (result s a) (Score.max alpha value) beta)
      as (x & Ex & Bx).
    rewrite Ex. cbn [bind as_number].
    pose proof (Window.max_round Hb Bx) as Hround.
    destruct (Score.leb beta (Score.max value x)) eqn:Hcut.
    + exists (Score.max value x). split; [reflexivity|].
      apply Window.cut_high with (m := Score.max mcur (full (result s a))).
      * exact Hround.
      * apply ScoreFacts.leb_le; exact Hcut.
      * apply fold_max_ge.
    + rewrite ScoreFacts.max_tighten. apply IH. exact Hround.
Qed.

(** Both recursive steps return a number that brackets the full
    minimax value of the same depth. *)
Lemma value_at_sound (n : nat) :
  sound (min_value_at self n) (Unpruned.minValue self mode n)
  /\ sound (max_value_at self n) (Unpruned.maxValue self mode n).
Proof.
  induction n as [|n [IHmin IHmax]].
  - split; intros s alpha beta;
      cbn [min_value_at max_value_at Unpruned.minValue Unpruned.maxValue];
      destruct (terminal_test s);
      eexists; (split; [try rewrite heuristic_evaluate; reflexivity
                       | apply Window.exact]).
  - split; intros s alpha beta;
      cbn [min_value_at max_value_at Unpruned.minValue Unpruned.maxValue];
      destruct (terminal_test s).
    + eexists; split; [reflexivity | apply Window.exact].
    + pose proof (@min_loop_sound _ _ s IHmax (actions s) PosInf PosInf
                    alpha beta (Window.exact PosInf alpha beta)) as H.
      rewrite ScoreFacts.min_PosInf_r in H. exact H.
    + eexists; split; [reflexivity | apply Window.exact].
    + pose proof (@max_loop_sound _ _ s IHmin (actions s) NegInf NegInf
                    alpha beta (Window.exact NegInf alpha beta)) as H.
      rewrite ScoreFacts.max_NegInf_r in H. exact H.
Qed.

Lemma min_value_sound (depth : Z) :
  sound (fun s a b => min_value self s a b depth)
    (Unpruned.minValue self mode (Z.to_nat depth)).
Proof. exact (proj1 (value_at_sound (Z.to_nat depth))). Qed.

End Soundness.

(** ** The recursion as the source writes it, on an integer depth *)

Section Unfolding.

Context {State Action Loc Cell : Type}.
Context {G : GameState State Action Loc Cell}.
Variable self : AlphaBetaAgent.

Lemma depth_pred (depth : Z) :
  0 < depth -> Z.to_nat depth = S (Z.to_nat (depth - 1)).
Proof. intros H. rewrite <- Z2Nat.inj_succ by lia. f_equal. lia. Qed.

Lemma min_value_eq (s : State) (alpha beta : score) (depth : Z) :
  min_value self s alpha beta depth =
    if terminal_test s then Ok (Some (utility s (agent_player self)))
    else if depth <=? 0 then Ok (heuristic self s)
    else min_loop (fun s' a b => max_value self s' a b (depth - 1))
           s (actions s) PosInf alpha beta.
Proof.
  unfold min_value, max_value. destruct (Z.leb_spec depth 0) as [Hd|Hd].
  - replace (Z.to_nat depth) with O by lia. reflexivity.
  - rewrite (depth_pred Hd). reflexivity.
Qed.

Lemma max_value_eq (s : State) (alpha beta : score) (depth : Z) :
  max_value self s alpha beta depth =
    if terminal_test s then Ok (Some (utility s (agent_player self)))
    else if depth <=? 0 then Ok (heuristic self s)
    else max_loop (fun s' a b => min_value self s' a b (depth - 1))
           s (actions s) NegInf alpha beta.
Proof.
  unfold min_value, max_value. destruct (Z.leb_spec depth 0) as [Hd|Hd].
  - replace (Z.to_nat depth) with O by lia. reflexivity.
  - rewrite (depth_pred Hd). reflexivity.
Qed.

End Unfolding.

(** ** The root loop *)

Section Root.

Context {State Action Loc Cell : Type}.
Context {G : GameState State Action Loc Cell}.

(** Whatever the recursive call does, a recorded move is a candidate. *)
Lemma root_loop_records child (s : State) :
  forall acts alpha beta best bm best' a,
    root_loop child s acts alpha beta best bm = Ok (best', Some a) ->
    bm = Some a \/ In a acts.
Proof.
  induction acts as [|x rest IH]; intros alpha beta best bm best' a;
    cbn [root_loop].
  - intros H. injection H as _ H. left. exact H.
  - destruct (child (result s x) alpha beta) as [[v|]|e];
      cbn [bind as_number]; try discriminate.
    destruct (Score.ltb best v); intros H; apply IH in H.
    + destruct H as [H|H]; [injection H as H; subst|]; right; cbn; auto.
    + destruct H as [H|H]; [left | right; cbn]; auto.
Qed.

(** A candidate whose value is not strictly above [best_score] leaves
    the recorded pair as it is. *)
Lemma root_loop_keeps child (s : State) action rest alpha beta best bm v :
  child (result s action) alpha beta = Ok (Some v) ->
  Score.le v best ->
  root_loop child s (action :: rest) alpha beta best bm
  = root_loop child s rest (Score.max alpha v) beta best bm.
Proof.
  intros E Hle. cbn [root_loop]. rewrite E. cbn [bind as_number].
  apply ScoreFacts.ltb_ge in Hle. rewrite Hle. reflexivity.
Qed.

(** With a sound recursive call the root loop, run from [alpha =
    best_score] and [beta = +inf], computes what the loop over the
    full values computes. *)
Lemma root_loop_full child (full : State -> score) (s : State) :
  sound child full ->
  forall acts best bm,
    root_loop child s acts best PosInf best bm
    = Ok (Unpruned.bestOver (fun a => full (result s a)) acts best,
          Unpruned.recorded (fun a => full (result s a)) acts best bm).
Proof.
  intros Hchild acts.
  induction acts as [|x rest IH]; intros best bm;
    cbn [root_loop Unpruned.recorded]; unfold Unpruned.bestOver;
    cbn [fold_left]; [reflexivity|].
  destruct (Hchild (result s x) best PosInf) as (v & E & B).
  rewrite E. cbn [bind as_number].
  rewrite (Window.root_alpha B), (Window.root_test B).
  unfold Score.max.
  destruct (Score.ltb best (full (result s x))) eqn:L.
  - rewrite <- (Window.root_test B) in L.
    rewrite (Window.root_exact B L). apply IH.
  - apply IH.
Qed.

(** The loop over the full values: either nothing beats the initial
    best, or the recorded move is the earliest of best score. *)
Lemma recorded_cases (f : Action -> score) :
  forall moves best bm,
    ((forall b, In b moves -> Score.le (f b) best)
     /\ Unpruned.recorded f moves best bm = bm
     /\ Unpruned.bestOver f moves best = best)
    \/ (exists before a after,
           moves = before ++ a :: after
           /\ Unpruned.recorded f moves best bm = Some a
           /\ Unpruned.bestOver f moves best = f a
           /\ Score.lt best (f a)
           /\ forall b, In b before -> Score.lt (f b) (f a)).
Proof.
  induction moves as [|x rest IH]; intros best bm.
  - left. repeat split. intros b [].
  - cbn [Unpruned.recorded]. unfold Unpruned.bestOver. cbn [fold_left].
    unfold Score.max. destruct (Score.ltb best (f x)) eqn:L.
    + apply ScoreFacts.ltb_lt in L.
      destruct (IH (f x) (Some x))
        as [(Hall & Hr & Hb) | (pre & a & post & -> & Hr & Hb & Hlt & Hpre)].
      * right. exists [], x, rest. repeat split; auto.
        intros b [].
      * right. exists (x :: pre), a, post. repeat split; auto.
        -- eapply ScoreFacts.lt_le_trans; [exact L|].
           apply ScoreFacts.lt_le. exact Hlt.
        -- intros b [<-|Hb']; auto.
    + apply ScoreFacts.ltb_ge in L.
      destruct (IH best bm)
        as [(Hall & Hr & Hb) | (pre & a & post & -> & Hr & Hb & Hlt & Hpre)].
      * left. repeat split; auto. intros b [<-|Hb']; auto.
      * right. exists (x :: pre), a, post. repeat split; auto.
        intros b [<-|Hb']; auto.
        eapply ScoreFacts.le_lt_trans; eauto.
Qed.

Lemma random_choice_In (rnd : nat) (l : list Action) (a : Action) :
  random_choice rnd l = Ok a -> In a l.
Proof.
  destruct l as [|x l]; [discriminate|].
  remember (x :: l) as l' eqn:El. unfold random_choice. rewrite El at 1.
  intros H. injection H as H. rewrite <- H. apply nth_In.
  apply Nat.mod_upper_bound. rewrite El. discriminate.
Qed.

Lemma random_choice_total (rnd : nat) (l : list Action) :
  l <> [] -> exists a, random_choice rnd l = Ok a.
Proof. destruct l; [congruence | intros _; eexists; reflexivity]. Qed.

End Root.

(** ** The root decision *)

Section Decision.

Context {State Action Loc Cell : Type}.
Context {G : GameState State Action Loc Cell}.
Variable self : AlphaBetaAgent.
Variable mode : Unpruned.heuristicMode.
Hypothesis Hmode : h_type self = Unpruned.flag mode.

Lemma root_search_full (s : State) (depth : Z) :
  root_search self s depth
  = Ok (Unpruned.searchScore self mode s depth,
        Unpruned.recorded (Unpruned.moveScore self mode s depth)
          (actions s) NegInf None).
Proof.
  unfold root_search, Unpruned.searchScore.
  apply (root_loop_full (full := Unpruned.minValue self mode
                                   (Z.to_nat (depth - 1)))).
  apply min_value_sound. exact Hmode.
Qed.

(** The two ways the root loop can end: no candidate scored above
    minus infinity and no move was recorded, or the earliest move of
    best score was. *)
Lemma decision_cases (s : State) (depth : Z) :
  (root_search self s depth = Ok (NegInf, None)
   /\ Unpruned.searchScore self mode s depth = NegInf
   /\ (forall b, In b (actions s) ->
                 Unpruned.moveScore self mode s depth b = NegInf)
   /\ forall rnd, minimax_decision self rnd s depth
                  = random_choice rnd (actions s))
  \/ (exists a,
         root_search self s depth
         = Ok (Unpruned.searchScore self mode s depth, Some a)
         /\ Score.lt NegInf (Unpruned.searchScore self mode s depth)
         /\ earliest_best (Unpruned.moveScore self mode s depth)
              (actions s) a
         /\ forall rnd, minimax_decision self rnd s depth = Ok a).
Proof.
  unfold minimax_decision. rewrite root_search_full.
  unfold Unpruned.searchScore.
  destruct (recorded_cases (Unpruned.moveScore self mode s depth)
              (actions s) NegInf None)
    as [(Hall & Hr & Hb) | (pre & a & post & El & Hr & Hb & Hlt & Hpre)].
  - left. rewrite Hr, Hb. repeat split; auto.
    intros b Hin. apply ScoreFacts.le_NegInf. auto.
  - right. exists a. rewrite Hr, Hb. repeat split; auto.
    exists pre, post. repeat split; auto.
Qed.

Lemma earliest_best_In (f : Action -> score) moves a :
  earliest_best f moves a -> In a moves.
Proof.
  intros (pre & post & -> & _). apply in_or_app. right. left. reflexivity.
Qed.

Lemma decision_total (s : State) (depth : Z) (rnd : nat) :
  actions s <> [] -> exists a, minimax_decision self rnd s depth = Ok a.
Proof.
  intros Hne.
  destruct (decision_cases s depth) as [(_ & _ & _ & Hd) | (a & _ & _ & _ & Hd)].
  - rewrite Hd. apply random_choice_total. exact Hne.
  - exists a. apply Hd.
Qed.

Lemma decision_attains (s : State) (depth : Z) (rnd : nat) (a : Action) :
  minimax_decision self rnd s depth = Ok a ->
  In a (actions s)
  /\ Unpruned.moveScore self mode s depth a
     = Unpruned.searchScore self mode s depth.
Proof.
  destruct (decision_cases s depth)
    as [(_ & Hs & Hall & Hd) | (a' & _ & _ & He & Hd)]; rewrite Hd; intros H.
  - apply random_choice_In in H. split; [exact H|].
    rewrite Hs. apply Hall. exact H.
  - injection H as <-. split; [eapply earliest_best_In; exact He|].
    destruct He as (pre & post & _ & Hv & _). exact Hv.
Qed.

End Decision.

(** The move returned is a candidate, whatever the heuristic flag. *)
Lemma decision_In {State Action Loc Cell : Type}
    {G : GameState State Action Loc Cell} (self : AlphaBetaAgent)
    (rnd : nat) (s : State) (depth : Z) (a : Action) :
  minimax_decision self rnd s depth = Ok a -> In a (actions s).
Proof.
  unfold minimax_decision, root_search.
  destruct (root_loop _ s (actions s) NegInf PosInf NegInf None)
    as [[best [m|]]|e] eqn:E; cbn [bind snd]; try discriminate.
  - intros H. injection H as <-.
    apply root_loop_records in E. destruct E as [E|E]; [discriminate|exact E].
  - apply random_choice_In.
Qed.

(** ** Iterative deepening *)

Section Deepening.

Context {State Action Loc Cell : Type}.
Context {G : GameState State Action Loc Cell}.
Variable self : AlphaBetaAgent.

Lemma range_length (lo hi : Z) : length (range lo hi) = Z.to_nat (hi - lo).
Proof. unfold range. rewrite length_map, length_seq. reflexivity. Qed.

Lemma range_nth_error (lo hi : Z) (i : nat) :
  (i < Z.to_nat (hi - lo))%nat ->
  nth_error (range lo hi) i = Some (lo + Z.of_nat i).
Proof.
  intros Hi. unfold range.
  rewrite nth_error_map.
  rewrite (nth_error_nth' _ 0%nat) by (rewrite length_seq; exact Hi).
  rewrite seq_nth by exact Hi. reflexivity.
Qed.

(** When every search returns a move, the run yields one move per
    depth, in the order of the depths, and ends normally. *)
Lemma compute_over_total (rnd : Z -> nat) (s : State) :
  (forall depth r, exists a, minimax_decision self r s depth = Ok a) ->
  forall depths,
    exists moves,
      compute_over self rnd s depths = (moves, None)
      /\ length moves = length depths
      /\ forall i depth move,
           nth_error depths i = Some depth ->
           nth_error moves i = Some move ->
           minimax_decision self (rnd depth) s depth = Ok move.
Proof.
  intros Htot depths. induction depths as [|d rest (moves & E & Hlen & Hnth)].
  - exists []. repeat split. intros [|i]; discriminate.
  - cbn [compute_over]. destruct (Htot d (rnd d)) as (a & Ea).
    rewrite Ea, E. exists (a :: moves). repeat split.
    + cbn [length]. rewrite Hlen. reflexivity.
    + intros [|i] depth move; cbn [nth_error].
      * intros H1 H2. injection H1 as <-. injection H2 as <-. exact Ea.
      * apply Hnth.
Qed.

End Deepening.

(** ** The heuristic *)

Lemma Qlt_bool_iff (a b : Q) : Qlt_bool a b = true <-> (a < b)%Q.
Proof.
  unfold Qlt_bool. destruct (Qle_bool b a) eqn:E; cbn [negb].
  - apply Qle_bool_iff in E. split; [discriminate|].
    intros H. exfalso. exact (Qlt_not_le _ _ H E).
  - split; [intros _ | reflexivity].
    apply Qnot_le_lt. intros H. apply Qle_bool_iff in H. congruence.
Qed.

Lemma Qlt_bool_ge (a b : Q) : Qlt_bool a b = false <-> (b <= a)%Q.
Proof.
  unfold Qlt_bool. destruct (Qle_bool b a) eqn:E; cbn [negb].
  - apply Qle_bool_iff in E. split; [intros _; exact E | reflexivity].
  - split; [discriminate|]. intros H. apply Qle_bool_iff in H. congruence.
Qed.

Section Heuristic.

Context {State Action Loc Cell : Type}.
Context {G : GameState State Action Loc Cell}.
Variable self : AlphaBetaAgent.

(** C6.  The phase-adaptive heuristic ([h_type = 1]): with fill ratio
    [r = ply_count / BOARD_SIZE], the score is agent mobility minus
    twice opponent mobility when [r < 0.5], and twice agent mobility
    minus opponent mobility otherwise; at [r = 0.3] with mobilities 5
    and 3 it is -1, at [r = 0.7] with the same mobilities it is 7. *)
Theorem phase_adaptive_formula (s : State) :
  h_type self = 1 ->
  let r := (ply_count s / inject_Z BOARD_SIZE)%Q in
  let a := len (liberties s (locs s (agent_player self))) in
  let o := len (liberties s (locs s (opponent_player self))) in
  ((r < 1 # 2)%Q -> heuristic self s = Some (Fin (a - 2 * o)))
  /\ ((1 # 2 <= r)%Q -> heuristic self s = Some (Fin (2 * a - o)))
  /\ ((r == 3 # 10)%Q -> a = 5 -> o = 3 ->
      heuristic self s = Some (Fin (-1)))
  /\ ((r == 7 # 10)%Q -> a = 5 -> o = 3 ->
      heuristic self s = Some (Fin 7)).
Proof.
  intros Hh r a o.
  assert (Hlow : (r < 1 # 2)%Q -> heuristic self s = Some (Fin (a - 2 * o))).
  { intros Hr. unfold heuristic. rewrite Hh. cbn [Z.eqb Pos.eqb].
    fold r. apply Qlt_bool_iff in Hr. rewrite Hr. reflexivity. }
  assert (Hhigh : (1 # 2 <= r)%Q ->
                  heuristic self s = Some (Fin (2 * a - o))).
  { intros Hr. unfold heuristic. rewrite Hh. cbn [Z.eqb Pos.eqb].
    fold r. apply Qlt_bool_ge in Hr. rewrite Hr. reflexivity. }
  repeat split; auto.
  - intros Hr Ha Ho. rewrite Hlow, Ha, Ho; [reflexivity|].
    rewrite Hr. reflexivity.
  - intros Hr Ha Ho. rewrite Hhigh, Ha, Ho; [reflexivity|].
    rewrite Hr. discriminate.
Qed.

(** C9 (as the code has it).  The heuristic makes no terminal check:
    on a terminal position, in either mode, it returns the same
    mobility score as on any other position, a finite number, and
    raises nothing. *)
Theorem heuristic_ignores_terminal (mode : Unpruned.heuristicMode)
    (s : State) :
  h_type self = Unpruned.flag mode ->
  terminal_test s = true ->
  heuristic self s = Some (Unpruned.evaluate self mode s)
  /\ exists z, Unpruned.evaluate self mode s = Fin z.
Proof.
  intros Hmode _. split; [apply heuristic_evaluate; exact Hmode|].
  unfold Unpruned.evaluate. destruct mode; [eexists; reflexivity|].
  destruct (Qlt_bool _ _); eexists; reflexivity.
Qed.

End Heuristic.

(** C10.  The constructor stores any flag; for a flag other than 0 and
    1 the heuristic returns [None] on every position. *)
Theorem heuristic_unknown_mode {State Action Loc Cell : Type}
    {G : GameState State Action Loc Cell}
    (agent opponent : player) (flag : Z) (s : State) :
  flag <> 0 -> flag <> 1 ->
  h_type (init agent opponent flag) = flag
  /\ heuristic (init agent opponent flag) s = None.
Proof.
  intros H0 H1. split; [reflexivity|].
  unfold heuristic. cbn [h_type init].
  destruct (Z.eqb_spec flag 0); [contradiction|].
  destruct (Z.eqb_spec flag 1); [contradiction|]. reflexivity.
Qed.

(** ** The recursive steps *)

Section Steps.

Context {State Action Loc Cell : Type}.
Context {G : GameState State Action Loc Cell}.
Variable self : AlphaBetaAgent.

(** C4.  On a terminal position [min_value] and [max_value] return
    the utility for the agent, for every window, every depth (also
    [depth <= 0], where a non-terminal position gets the heuristic)
    and every heuristic flag. *)
Theorem terminal_override (s : State) (alpha beta : score) (depth : Z) :
  terminal_test s = true ->
  min_value self s alpha beta depth
  = Ok (Some (utility s (agent_player self)))
  /\ max_value self s alpha beta depth
     = Ok (Some (utility s (agent_player self))).
Proof.
  intros Ht. rewrite min_value_eq, max_value_eq, Ht. split; reflexivity.
Qed.

(** C5.  On a non-terminal position without a legal move, with depth
    left, [min_value] returns plus infinity and [max_value] minus
    infinity, and neither raises. *)
Theorem stuck_returns_sentinel (s : State) (alpha beta : score)
    (depth : Z) :
  terminal_test s = false ->
  0 < depth ->
  actions s = [] ->
  min_value self s alpha beta depth = Ok (Some PosInf)
  /\ max_value self s alpha beta depth = Ok (Some NegInf).
Proof.
  intros Ht Hd Ha. rewrite min_value_eq, max_value_eq, Ht, Ha.
  destruct (Z.leb_spec depth 0); [lia|]. split; reflexivity.
Qed.

End Steps.

(** ** The root search and the generator *)

Section RootSearch.

Context {State Action Loc Cell : Type}.
Context {G : GameState State Action Loc Cell}.
Variable self : AlphaBetaAgent.

(** C1.  In either heuristic mode, for every position and depth (in
    particular every depth of at least 1), the best score the pruned
    root loop ends with is the root score of the full minimax search
    of the same depth; a move returned by [minimax_decision] is a
    legal move whose full score is that root score; and from a
    position with a legal move a move is returned. *)
Theorem alpha_beta_equals_minimax (mode : Unpruned.heuristicMode)
    (s : State) (depth : Z) :
  h_type self = Unpruned.flag mode ->
  (exists best_move,
      root_search self s depth
      = Ok (Unpruned.searchScore self mode s depth, best_move))
  /\ (forall rnd a,
         minimax_decision self rnd s depth = Ok a ->
         In a (actions s)
         /\ Unpruned.moveScore self mode s depth a
            = Unpruned.searchScore self mode s depth)
  /\ (actions s <> [] ->
      forall rnd, exists a, minimax_decision self rnd s depth = Ok a).
Proof.
  intros Hmode. split; [|split].
  - eexists. apply root_search_full. exact Hmode.
  - intros rnd a. apply decision_attains. exact Hmode.
  - intros Hne rnd. apply decision_total with (mode := mode); assumption.
Qed.

(** C2.  A move returned by [minimax_decision], from the loop or from
    the random fallback, is an element of [gameState.actions()]; and
    in either heuristic mode a position with a legal move gets one. *)
Theorem decision_is_legal (s : State) (depth : Z) :
  (forall rnd a,
      minimax_decision self rnd s depth = Ok a -> In a (actions s))
  /\ (forall mode rnd,
         h_type self = Unpruned.flag mode ->
         actions s <> [] ->
         exists a,
           minimax_decision self rnd s depth = Ok a /\ In a (actions s)).
Proof.
  split.
  - intros rnd a. apply decision_In.
  - intros mode rnd Hmode Hne.
    destruct (decision_total self mode Hmode s depth rnd Hne) as (a & Ha).
    exists a. split; [exact Ha | eapply decision_In; exact Ha].
Qed.

(** C3 (as the code has it).  In either heuristic mode, when some
    candidate scores above minus infinity, [minimax_decision] returns,
    whatever the random draw, the earliest move in [actions()] order
    among those of best score; and in the loop a candidate whose value
    does not exceed [best_score] leaves [best_score] and [best_move]
    as they are. *)
Theorem tie_break_above_minus_infinity (mode : Unpruned.heuristicMode)
    (s : State) (depth : Z) :
  h_type self = Unpruned.flag mode ->
  (Score.lt NegInf (Unpruned.searchScore self mode s depth) ->
   exists a,
     earliest_best (Unpruned.moveScore self mode s depth) (actions s) a
     /\ forall rnd, minimax_decision self rnd s depth = Ok a)
  /\ (forall action rest alpha beta best_score best_move value,
         min_value self (result s action) alpha beta (depth - 1)
         = Ok (Some value) ->
         Score.le value best_score ->
         root_loop (fun s' a b => min_value self s' a b (depth - 1))
           s (action :: rest) alpha beta best_score best_move
         = root_loop (fun s' a b => min_value self s' a b (depth - 1))
             s rest (Score.max alpha value) beta best_score best_move).
Proof.
  intros Hmode. split.
  - intros Habove.
    destruct (decision_cases self mode Hmode s depth)
      as [(_ & Hs & _) | (a & _ & _ & He & Hd)].
    + rewrite Hs in Habove. contradiction.
    + exists a. split; assumption.
  - intros action rest alpha beta best_score best_move value E Hle.
    apply root_loop_keeps; assumption.
Qed.

(** C8 (as the code has it).  In either heuristic mode the root loop
    ends without a recorded move exactly when no candidate scores
    above minus infinity (so also when there is no candidate); only
    then does [random.choice] decide, and a recorded move is returned
    whatever the draw. *)
Theorem fallback_exactly_when_nothing_recorded
    (mode : Unpruned.heuristicMode) (s : State) (depth : Z) :
  h_type self = Unpruned.flag mode ->
  exists best_score best_move,
    root_search self s depth = Ok (best_score, best_move)
    /\ (best_move = None <->
        forall b, In b (actions s) ->
                  Unpruned.moveScore self mode s depth b = NegInf)
    /\ (forall a, best_move = Some a ->
                  forall rnd, minimax_decision self rnd s depth = Ok a)
    /\ (best_move = None ->
        forall rnd, minimax_decision self rnd s depth
                    = random_choice rnd (actions s)).
Proof.
  intros Hmode.
  destruct (decision_cases self mode Hmode s depth)
    as [(Hr & Hs & Hall & Hd) | (a & Hr & Habove & He & Hd)].
  - exists NegInf, None.
    split; [exact Hr|]. split; [split; [intros _; exact Hall | reflexivity]|].
    split; [discriminate | intros _; exact Hd].
  - exists (Unpruned.searchScore self mode s depth), (Some a).
    split; [exact Hr|]. split; [split; [discriminate|]|].
    + intros Hall. exfalso.
      pose proof (earliest_best_In He) as Hin.
      destruct He as (pre & post & _ & Hv & _).
      fold (Unpruned.searchScore self mode s depth) in Hv.
      rewrite <- Hv, (Hall a Hin) in Habove. exact Habove.
    + split; [|discriminate].
      intros a' H. injection H as <-. exact Hd.
Qed.

(** C7 (as the code has it).  In either heuristic mode, from a
    position with a legal move, [compute] consumed to its end yields
    exactly [max_depth] moves (none when [max_depth <= 0]) and ends
    normally; the yield number [i], counted from 0, is the move
    returned by the completed search [minimax_decision] at depth
    [1 + i], so the depths run 1, 2, ..., [max_depth] in order. *)
Theorem compute_yields_every_depth (mode : Unpruned.heuristicMode)
    (rnd : Z -> nat) (s : State) (max_depth : Z) :
  h_type self = Unpruned.flag mode ->
  actions s <> [] ->
  exists moves,
    compute self rnd s max_depth = (moves, None)
    /\ Z.of_nat (length moves) = Z.max 0 max_depth
    /\ forall i move,
         nth_error moves i = Some move ->
         minimax_decision self (rnd (1 + Z.of_nat i)) s (1 + Z.of_nat i)
         = Ok move.
Proof.
  intros Hmode Hne. unfold compute.
  destruct (compute_over_total self rnd s
              (fun depth r => decision_total self mode Hmode s depth r Hne)
              (range 1 (max_depth + 1)))
    as (moves & E & Hlen & Hnth).
  rewrite range_length in Hlen.
  exists moves. repeat split.
  - exact E.
  - rewrite Hlen. lia.
  - intros i move Hi.
    assert (Hlt : (i < Z.to_nat (max_depth + 1 - 1))%nat).
    { rewrite <- Hlen. apply nth_error_Some. congruence. }
    apply (Hnth i); [|exact Hi]. apply range_nth_error. exact Hlt.
Qed.

End RootSearch.

(** ** The theorems on scripted positions *)

Lemma alpha_beta_equals_minimax_witness :
  h_type Scripted.benchmark = Unpruned.flag Unpruned.baseline
  /\ (exists best_move,
         root_search Scripted.benchmark Scripted.pruned 2
         = Ok (Unpruned.searchScore Scripted.benchmark Unpruned.baseline
                 Scripted.pruned 2, best_move))
  /\ (In 2%nat (actions Scripted.pruned)
      /\ Unpruned.moveScore Scripted.benchmark Unpruned.baseline
           Scripted.pruned 2 2%nat
         = Unpruned.searchScore Scripted.benchmark Unpruned.baseline
             Scripted.pruned 2)
  /\ exists a, minimax_decision Scripted.benchmark 0 Scripted.pruned 2 = Ok a.
Proof.
  destruct (alpha_beta_equals_minimax Scripted.benchmark Unpruned.baseline
              Scripted.pruned 2 eq_refl) as (H1 & H2 & H3).
  split; [reflexivity|]. split; [exact H1|]. split.
  - apply (H2 0%nat). reflexivity.
  - apply H3. discriminate.
Defined.

Lemma decision_is_legal_witness :
  In 2%nat (actions Scripted.pruned)
  /\ exists a,
       minimax_decision Scripted.custom 7 Scripted.doomed 3 = Ok a
       /\ In a (actions Scripted.doomed).
Proof.
  split.
  - apply (proj1 (decision_is_legal Scripted.benchmark Scripted.pruned 2)
             0%nat).
    reflexivity.
  - apply (proj2 (decision_is_legal Scripted.custom Scripted.doomed 3)
             Unpruned.phase_adaptive 7%nat).
    + reflexivity.
    + discriminate.
Defined.

Lemma tie_break_above_minus_infinity_witness :
  h_type Scripted.benchmark = Unpruned.flag Unpruned.baseline
  /\ Score.lt NegInf
       (Unpruned.searchScore Scripted.benchmark Unpruned.baseline
          Scripted.tied 1)
  /\ (exists a,
         earliest_best
           (Unpruned.moveScore Scripted.benchmark Unpruned.baseline
              Scripted.tied 1)
           (actions Scripted.tied) a
         /\ forall rnd,
              minimax_decision Scripted.benchmark rnd Scripted.tied 1 = Ok a)
  /\ root_loop (fun s' a b => min_value Scripted.benchmark s' a b (1 - 1))
       Scripted.tied [1; 2; 3]%nat (Fin 1) PosInf (Fin 1) (Some 0%nat)
     = root_loop (fun s' a b => min_value Scripted.benchmark s' a b (1 - 1))
         Scripted.tied [2; 3]%nat (Score.max (Fin 1) (Fin 1)) PosInf (Fin 1)
         (Some 0%nat).
Proof.
  destruct (tie_break_above_minus_infinity Scripted.benchmark
              Unpruned.baseline Scripted.tied 1 eq_refl) as (H1 & H2).
  split; [reflexivity|]. split; [vm_compute; exact I|]. split.
  - apply H1. vm_compute. exact I.
  - apply H2.
    + reflexivity.
    + vm_compute. discriminate.
Defined.

Lemma terminal_override_witness :
  terminal_test Scripted.lost = true
  /\ min_value Scripted.custom Scripted.lost (Fin 3) (Fin 1) 0
     = Ok (Some NegInf)
  /\ max_value Scripted.custom Scripted.lost (Fin 3) (Fin 1) 0
     = Ok (Some NegInf).
Proof.
  split; [reflexivity|].
  exact (terminal_override Scripted.custom Scripted.lost (Fin 3) (Fin 1) 0
           eq_refl).
Defined.

Lemma stuck_returns_sentinel_witness :
  terminal_test Scripted.stuck = false
  /\ 0 < 2
  /\ actions Scripted.stuck = []
  /\ min_value Scripted.benchmark Scripted.stuck NegInf PosInf 2
     = Ok (Some PosInf)
  /\ max_value Scripted.benchmark Scripted.stuck NegInf PosInf 2
     = Ok (Some NegInf).
Proof.
  split; [reflexivity|]. split; [lia|]. split; [reflexivity|].
  apply (stuck_returns_sentinel Scripted.benchmark Scripted.stuck
           NegInf PosInf); [reflexivity | lia | reflexivity].
Defined.

Lemma phase_adaptive_formula_witness :
  h_type Scripted.custom = 1
  /\ (ply_count Scripted.early / inject_Z BOARD_SIZE == 3 # 10)%Q
  /\ (ply_count Scripted.late / inject_Z BOARD_SIZE == 7 # 10)%Q
  /\ heuristic Scripted.custom Scripted.early = Some (Fin (5 - 2 * 3))
  /\ heuristic Scripted.custom Scripted.late = Some (Fin (2 * 5 - 3))
  /\ heuristic Scripted.custom Scripted.early = Some (Fin (-1))
  /\ heuristic Scripted.custom Scripted.late = Some (Fin 7).
Proof.
  pose proof (phase_adaptive_formula Scripted.custom Scripted.early eq_refl)
    as He.
  pose proof (phase_adaptive_formula Scripted.custom Scripted.late eq_refl)
    as Hl.
  cbv zeta in He, Hl.
  destruct He as (He1 & _ & He3 & _). destruct Hl as (_ & Hl2 & _ & Hl4).
  split; [reflexivity|]. split; [vm_compute; reflexivity|].
  split; [vm_compute; reflexivity|]. split; [|split; [|split]].
  - apply He1. vm_compute. reflexivity.
  - apply Hl2. vm_compute. discriminate.
  - apply He3; vm_compute; reflexivity.
  - apply Hl4; vm_compute; reflexivity.
Defined.

Lemma compute_yields_every_depth_witness :
  h_type Scripted.benchmark = Unpruned.flag Unpruned.baseline
  /\ actions Scripted.pruned <> []
  /\ exists moves,
       compute Scripted.benchmark (fun _ => 0%nat) Scripted.pruned 3
       = (moves, None)
       /\ Z.of_nat (length moves) = Z.max 0 3
       /\ forall i move,
            nth_error moves i = Some move ->
            minimax_decision Scripted.benchmark 0 Scripted.pruned
              (1 + Z.of_nat i)
            = Ok move.
Proof.
  split; [reflexivity|]. split; [discriminate|].
  apply (compute_yields_every_depth Scripted.benchmark Unpruned.baseline
           (fun _ => 0%nat) Scripted.pruned 3).
  - reflexivity.
  - discriminate.
Defined.

Lemma fallback_exactly_when_nothing_recorded_witness :
  h_type Scripted.benchmark = Unpruned.flag Unpruned.baseline
  /\ exists best_score best_move,
       root_search Scripted.benchmark Scripted.pruned 2
       = Ok (best_score, best_move)
       /\ (best_move = None <->
           forall b, In b (actions Scripted.pruned) ->
                     Unpruned.moveScore Scripted.benchmark Unpruned.baseline
                       Scripted.pruned 2 b = NegInf)
       /\ (forall a, best_move = Some a ->
                     forall rnd,
                       minimax_decision Scripted.benchmark rnd
                         Scripted.pruned 2 = Ok a)
       /\ (best_move = None ->
           forall rnd,
             minimax_decision Scripted.benchmark rnd Scripted.pruned 2
             = random_choice rnd (actions Scripted.pruned)).
Proof.
  split; [reflexivity|].
  apply (fallback_exactly_when_nothing_recorded Scripted.benchmark
           Unpruned.baseline Scripted.pruned 2).
  reflexivity.
Defined.

Lemma heuristic_ignores_terminal_witness :
  h_type Scripted.custom = Unpruned.flag Unpruned.phase_adaptive
  /\ terminal_test Scripted.won = true
  /\ heuristic Scripted.custom Scripted.won
     = Some (Unpruned.evaluate Scripted.custom Unpruned.phase_adaptive
               Scripted.won)
  /\ exists z,
       Unpruned.evaluate Scripted.custom Unpruned.phase_adaptive Scripted.won
       = Fin z.
Proof.
  split; [reflexivity|]. split; [reflexivity|].
  apply (heuristic_ignores_terminal Scripted.custom Unpruned.phase_adaptive
           Scripted.won); reflexivity.
Defined.

Lemma heuristic_unknown_mode_witness :
  2 <> 0 /\ 2 <> 1
  /\ h_type (init Player0 Player1 2) = 2
  /\ heuristic (init Player0 Player1 2) Scripted.pruned = None.
Proof.
  split; [lia|]. split; [lia|].
  apply (heuristic_unknown_mode Player0 Player1 (flag := 2) Scripted.pruned);
    lia.
Defined.

(** ** Where the root falls back on the random draw *)

(** C3, as stated, fails at [Scripted.doomed]: its two moves lead to
    lost games, so both score minus infinity, in the pruned loop as in
    the full search; no move is recorded, and with the draw 1 the
    decision is move 1, although move 0 comes earlier with the same
    score; with the draw 0 it is move 0, so the choice depends on the
    draw. *)
Lemma tie_break_counterexample :
  actions Scripted.doomed = [0; 1]%nat
  /\ min_value Scripted.benchmark (result Scripted.doomed 0%nat)
       NegInf PosInf (1 - 1) = Ok (Some NegInf)
  /\ min_value Scripted.benchmark (result Scripted.doomed 1%nat)
       NegInf PosInf (1 - 1) = Ok (Some NegInf)
  /\ Unpruned.moveScore Scripted.benchmark Unpruned.baseline
       Scripted.doomed 1 0%nat
     = Unpruned.moveScore Scripted.benchmark Unpruned.baseline
         Scripted.doomed 1 1%nat
  /\ minimax_decision Scripted.benchmark 1 Scripted.doomed 1 = Ok 1%nat
  /\ minimax_decision Scripted.benchmark 0 Scripted.doomed 1 = Ok 0%nat
  /\ ~ earliest_best
         (Unpruned.moveScore Scripted.benchmark Unpruned.baseline
            Scripted.doomed 1)
         (actions Scripted.doomed) 1%nat.
Proof.
  repeat (split; [reflexivity|]).
  intros (before & after & E & _ & Hbefore).
  destruct before as [|b before]; [discriminate E|].
  injection E as <- E.
  specialize (Hbefore 0%nat (or_introl eq_refl)).
  vm_compute in Hbefore. exact Hbefore.
Qed.

(** C8, as stated, fails at [Scripted.doomed] and at
    [Scripted.cornered]: each has a legal move, yet the loop records
    none, because no candidate scores above minus infinity, and the
    move returned is the one [random.choice] draws. *)
Lemma fallback_counterexample :
  actions Scripted.doomed = [0; 1]%nat
  /\ root_search Scripted.benchmark Scripted.doomed 1 = Ok (NegInf, None)
  /\ minimax_decision Scripted.benchmark 1 Scripted.doomed 1
     = random_choice 1 (actions Scripted.doomed)
  /\ random_choice 1 (actions Scripted.doomed) = Ok 1%nat
  /\ actions Scripted.cornered = [0%nat]
  /\ terminal_test (result Scripted.cornered 0%nat) = false
  /\ root_search Scripted.custom Scripted.cornered 3 = Ok (NegInf, None)
  /\ minimax_decision Scripted.custom 5 Scripted.cornered 3
     = random_choice 5 (actions Scripted.cornered).
Proof. repeat split. Qed.

(** C7, as stated, fails at a position without a legal move, such as
    the finished game [Scripted.lost]: the first search raises
    [IndexError] in [random.choice] and nothing is yielded; and with a
    heuristic flag other than 0 and 1 the first search raises
    [TypeError] at the horizon. *)
Lemma compute_counterexample :
  1 <= 3
  /\ actions Scripted.lost = []
  /\ compute Scripted.benchmark (fun _ => 0%nat) Scripted.lost 3
     = ([], Some IndexError)
  /\ length (fst (compute Scripted.benchmark (fun _ => 0%nat)
                    Scripted.lost 3)) <> Z.to_nat 3
  /\ compute Scripted.unchecked (fun _ => 0%nat) Scripted.pruned 3
     = ([], Some TypeError).
Proof.
  split; [lia|]. repeat (split; [reflexivity|]).
  split; [discriminate | reflexivity].
Qed.

(** C9, as stated, fails at the finished games [Scripted.lost] and
    [Scripted.won]: the heuristic returns a mobility score for them in
    both modes and raises nothing. *)
Lemma heuristic_terminal_counterexample :
  terminal_test Scripted.lost = true
  /\ heuristic Scripted.benchmark Scripted.lost = Some (Fin (-3))
  /\ heuristic Scripted.custom Scripted.lost = Some (Fin (-6))
  /\ terminal_test Scripted.won = true
  /\ heuristic Scripted.custom Scripted.won = Some (Fin 3).
Proof. repeat split. Qed.

(** ** More on the recursive steps *)

Section Values.

Context {State Action Loc Cell : Type}.
Context {G : GameState State Action Loc Cell}.
Variable self : AlphaBetaAgent.
Variable mode : Unpruned.heuristicMode.

(** X1.  In either heuristic mode [min_value] and [max_value] raise
    nothing and return a number [v], for every window and depth; below
    [beta] it is an upper bound of the full minimax value, above
    [alpha] a lower bound, and strictly between the two it is the full
    value. *)
Theorem pruned_value_bounds (s : State) (alpha beta : score) (depth : Z) :
  h_type self = Unpruned.flag mode ->
  (exists v,
      min_value self s alpha beta depth = Ok (Some v)
      /\ (Score.lt v beta ->
          Score.le (Unpruned.minValue self mode (Z.to_nat depth) s) v)
      /\ (Score.lt alpha v ->
          Score.le v (Unpruned.minValue self mode (Z.to_nat depth) s))
      /\ (Score.lt alpha v -> Score.lt v beta ->
          v = Unpruned.minValue self mode (Z.to_nat depth) s))
  /\ (exists v,
         max_value self s alpha beta depth = Ok (Some v)
         /\ (Score.lt v beta ->
             Score.le (Unpruned.maxValue self mode (Z.to_nat depth) s) v)
         /\ (Score.lt alpha v ->
             Score.le v (Unpruned.maxValue self mode (Z.to_nat depth) s))
         /\ (Score.lt alpha v -> Score.lt v beta ->
             v = Unpruned.maxValue self mode (Z.to_nat depth) s)).
Proof.
  intros Hmode.
  destruct (value_at_sound self mode Hmode (Z.to_nat depth)) as [Hmin Hmax].
  split.
  - destruct (Hmin s alpha beta) as (v & E & Hup & Hlow).
    exists v. split; [exact E|]. split; [exact Hup|]. split; [exact Hlow|].
    intros Ha Hb. specialize (Hup Hb). specialize (Hlow Ha).
    revert Hup Hlow.
    generalize (Unpruned.minValue self mode (Z.to_nat depth) s).
    clear. intros m Hup Hlow. score_cases.
  - destruct (Hmax s alpha beta) as (v & E & Hup & Hlow).
    exists v. split; [exact E|]. split; [exact Hup|]. split; [exact Hlow|].
    intros Ha Hb. specialize (Hup Hb). specialize (Hlow Ha).
    revert Hup Hlow.
    generalize (Unpruned.maxValue self mode (Z.to_nat depth) s).
    clear. intros m Hup Hlow. score_cases.
Qed.

(** X2.  In either heuristic mode, called with the full window (minus
    infinity, plus infinity), [min_value] and [max_value] return
    exactly the value of the unpruned minimax of the same depth. *)
Theorem full_window_exact (s : State) (depth : Z) :
  h_type self = Unpruned.flag mode ->
  min_value self s NegInf PosInf depth
  = Ok (Some (Unpruned.minValue self mode (Z.to_nat depth) s))
  /\ max_value self s NegInf PosInf depth
     = Ok (Some (Unpruned.maxValue self mode (Z.to_nat depth) s)).
Proof.
  intros Hmode.
  destruct (value_at_sound self mode Hmode (Z.to_nat depth)) as [Hmin Hmax].
  split.
  - destruct (Hmin s NegInf PosInf) as (v & E & Hup & Hlow).
    unfold min_value. rewrite E. do 2 f_equal.
    revert Hup Hlow.
    generalize (Unpruned.minValue self mode (Z.to_nat depth) s).
    clear. intros m Hup Hlow. score_cases.
  - destruct (Hmax s NegInf PosInf) as (v & E & Hup & Hlow).
    unfold max_value. rewrite E. do 2 f_equal.
    revert Hup Hlow.
    generalize (Unpruned.maxValue self mode (Z.to_nat depth) s).
    clear. intros m Hup Hlow. score_cases.
Qed.

End Values.

(** ** More on the generator *)

Section Generator.

Context {State Action Loc Cell : Type}.
Context {G : GameState State Action Loc Cell}.
Variable self : AlphaBetaAgent.

Lemma range_cons (lo hi : Z) :
  lo < hi -> range lo hi = lo :: range (lo + 1) hi.
Proof.
  intros H. unfold range.
  replace (Z.to_nat (hi - lo)) with (S (Z.to_nat (hi - (lo + 1)))) by lia.
  cbn [seq map]. f_equal; [lia|].
  rewrite <- seq_shift, map_map. apply map_ext. intros i. lia.
Qed.

Lemma range_nil (lo hi : Z) : hi <= lo -> range lo hi = [].
Proof.
  intros H. unfold range.
  replace (Z.to_nat (hi - lo)) with O by lia. reflexivity.
Qed.

Lemma seq_from (k n : nat) : seq k n = map (Nat.add k) (seq 0 n).
Proof.
  revert k. induction n as [|n IH]; intros k; cbn [seq map]; [reflexivity|].
  f_equal; [lia|]. rewrite (IH (S k)), (IH 1%nat), map_map.
  apply map_ext. intros i. lia.
Qed.

Lemma range_app (lo mid hi : Z) :
  lo <= mid -> mid <= hi -> range lo hi = range lo mid ++ range mid hi.
Proof.
  intros H1 H2. unfold range.
  replace (Z.to_nat (hi - lo))
    with (Z.to_nat (mid - lo) + Z.to_nat (hi - mid))%nat by lia.
  rewrite seq_app, map_app. f_equal.
  rewrite seq_from, map_map. apply map_ext. intros i. lia.
Qed.

Lemma compute_over_app (rnd : Z -> nat) (s : State) (l1 l2 : list Z) :
  compute_over self rnd s (l1 ++ l2)
  = match compute_over self rnd s l1 with
    | (moves, Some e) => (moves, Some e)
    | (moves, None) =>
        (moves ++ fst (compute_over self rnd s l2),
         snd (compute_over self rnd s l2))
    end.
Proof.
  induction l1 as [|d l1 IH]; cbn [app compute_over].
  - destruct (compute_over self rnd s l2); reflexivity.
  - destruct (minimax_decision self (rnd d) s d); [|reflexivity].
    rewrite IH. destruct (compute_over self rnd s l1) as [m [e|]];
      reflexivity.
Qed.

Lemma compute_over_count (rnd : Z -> nat) (s : State) (depths : list Z) :
  (length (fst (compute_over self rnd s depths)) <= length depths)%nat
  /\ (snd (compute_over self rnd s depths) = None
      <-> length (fst (compute_over self rnd s depths)) = length depths).
Proof.
  induction depths as [|d rest [IH1 IH2]]; cbn [compute_over].
  - split; [apply Nat.le_refl | split; reflexivity].
  - destruct (minimax_decision self (rnd d) s d); cbn [fst snd length].
    + destruct (compute_over self rnd s rest) as [m st]; cbn [fst snd length] in *.
      split; [lia|]. rewrite IH2. split; lia.
    + split; [lia|]. split; discriminate.
Qed.

Lemma compute_over_legal (rnd : Z -> nat) (s : State) (depths : list Z) :
  Forall (fun a => In a (actions s)) (fst (compute_over self rnd s depths)).
Proof.
  induction depths as [|d rest IH]; cbn [compute_over].
  - constructor.
  - destruct (minimax_decision self (rnd d) s d) eqn:E; cbn [fst].
    + destruct (compute_over self rnd s rest) as [m st]; cbn [fst] in *.
      constructor; [eapply decision_In; exact E | exact IH].
    + constructor.
Qed.

(** X3.  From a position without a legal move, whatever the heuristic
    flag, the depth and the draw, [minimax_decision] raises
    [IndexError] (from [random.choice]), and [compute] with a
    [max_depth] of at least 1 yields nothing before raising it. *)
Theorem no_move_raises_IndexError (rnd : Z -> nat) (s : State) :
  actions s = [] ->
  (forall r depth, minimax_decision self r s depth = Raise IndexError)
  /\ (forall max_depth,
         1 <= max_depth ->
         compute self rnd s max_depth = ([], Some IndexError)).
Proof.
  intros Ha.
  assert (Hd : forall r depth,
             minimax_decision self r s depth = Raise IndexError).
  { intros r depth. unfold minimax_decision, root_search. rewrite Ha.
    reflexivity. }
  split; [exact Hd|].
  intros max_depth Hm. unfold compute. rewrite range_cons by lia.
  cbn [compute_over]. rewrite Hd. reflexivity.
Qed.

(** X4.  Whatever the position, the heuristic flag and the draws,
    [compute] yields at most [max_depth] moves (none when
    [max_depth <= 0], and then it ends normally); it ends normally
    exactly when it has yielded a move for every depth. *)
Theorem compute_yields_at_most (rnd : Z -> nat) (s : State) (max_depth : Z) :
  (length (fst (compute self rnd s max_depth)) <= Z.to_nat max_depth)%nat
  /\ (snd (compute self rnd s max_depth) = None
      <-> length (fst (compute self rnd s max_depth)) = Z.to_nat max_depth)
  /\ (max_depth <= 0 -> compute self rnd s max_depth = ([], None)).
Proof.
  unfold compute.
  pose proof (compute_over_count rnd s (range 1 (max_depth + 1))) as [H1 H2].
  rewrite range_length in H1, H2.
  replace (Z.to_nat (max_depth + 1 - 1)) with (Z.to_nat max_depth) in * by lia.
  split; [exact H1|]. split; [exact H2|].
  intros Hm. rewrite range_nil by lia. reflexivity.
Qed.

(** X5.  Every move that [compute] yields is an element of
    [gameState.actions()], whatever the heuristic flag, the depth limit
    and the draws, also when the run later ends in an exception. *)
Theorem compute_yields_legal_moves (rnd : Z -> nat) (s : State)
    (max_depth : Z) (a : Action) :
  In a (fst (compute self rnd s max_depth)) -> In a (actions s).
Proof.
  intros Hin.
  pose proof (compute_over_legal rnd s (range 1 (max_depth + 1))) as H.
  rewrite Forall_forall in H. apply H. exact Hin.
Qed.

(** X6.  Raising the depth limit only appends: with the same draws,
    the moves yielded under [max_depth] are a prefix of those yielded
    under any larger limit, and a run that ended in an exception is
    unchanged by a larger limit. *)
Theorem compute_deeper_extends (rnd : Z -> nat) (s : State)
    (max_depth max_depth' : Z) :
  max_depth <= max_depth' ->
  (exists more,
      fst (compute self rnd s max_depth')
      = fst (compute self rnd s max_depth) ++ more)
  /\ (forall e,
         snd (compute self rnd s max_depth) = Some e ->
         compute self rnd s max_depth' = compute self rnd s max_depth).
Proof.
  intros Hle. unfold compute.
  destruct (Z.le_gt_cases 0 max_depth) as [Hpos|Hneg].
  - rewrite (@range_app 1 (max_depth + 1) (max_depth' + 1)) by lia.
    rewrite compute_over_app.
    destruct (compute_over self rnd s (range 1 (max_depth + 1)))
      as [m [e|]]; cbn [fst snd].
    + split; [exists []; rewrite app_nil_r; reflexivity|].
      intros e' _. reflexivity.
    + split; [eexists; reflexivity | discriminate].
  - rewrite (range_nil (lo := 1) (hi := max_depth + 1)) by lia.
    cbn [compute_over fst snd app].
    split; [eexists; reflexivity | discriminate].
Qed.

End Generator.

(** ** The steps above the horizon *)

Section StepEquations.

Context {State Action Loc Cell : Type}.
Context {G : GameState State Action Loc Cell}.
Variable self : AlphaBetaAgent.

Lemma min_value_at_S (n : nat) (s : State) (alpha beta : score) :
  min_value_at self (S n) s alpha beta
  = if terminal_test s then Ok (Some (utility s (agent_player self)))
    else min_loop (max_value_at self n) s (actions s) PosInf alpha beta.
Proof. reflexivity. Qed.

Lemma max_value_at_S (n : nat) (s : State) (alpha beta : score) :
  max_value_at self (S n) s alpha beta
  = if terminal_test s then Ok (Some (utility s (agent_player self)))
    else max_loop (min_value_at self n) s (actions s) NegInf alpha beta.
Proof. reflexivity. Qed.

Lemma min_value_at_O (s : State) (alpha beta : score) :
  min_value_at self O s alpha beta
  = if terminal_test s then Ok (Some (utility s (agent_player self)))
    else Ok (heuristic self s).
Proof. reflexivity. Qed.

Lemma max_value_at_O (s : State) (alpha beta : score) :
  max_value_at self O s alpha beta
  = if terminal_test s then Ok (Some (utility s (agent_player self)))
    else Ok (heuristic self s).
Proof. reflexivity. Qed.

End StepEquations.

(** ** An unknown heuristic flag *)

Section UnknownFlag.

Context {State Action Loc Cell : Type}.
Context {G : GameState State Action Loc Cell}.
Variable self : AlphaBetaAgent.
Hypothesis Hnot0 : h_type self <> 0.
Hypothesis Hnot1 : h_type self <> 1.

Lemma heuristic_None (s : State) : heuristic self s = None.
Proof.
  unfold heuristic.
  destruct (Z.eqb_spec (h_type self) 0); [contradiction|].
  destruct (Z.eqb_spec (h_type self) 1); [contradiction|]. reflexivity.
Qed.

(** Along an open line the horizon returns [None], and every step
    above it raises. *)
Lemma open_line_value (n : nat) :
  forall s alpha beta,
    open_line n s = true ->
    min_value_at self n s alpha beta
    = match n with O => Ok None | S _ => Raise TypeError end
    /\ max_value_at self n s alpha beta
       = match n with O => Ok None | S _ => Raise TypeError end.
Proof.
  induction n as [|n IH]; intros s alpha beta; cbn [open_line];
    intros H; apply andb_prop in H; destruct H as [Ht H];
    apply negb_true_iff in Ht.
  - rewrite min_value_at_O, max_value_at_O, Ht, heuristic_None.
    split; reflexivity.
  - rewrite min_value_at_S, max_value_at_S, Ht.
    destruct (actions s) as [|a rest]; [discriminate|].
    cbn [min_loop max_loop].
    destruct (IH (result s a) alpha beta H) as [-> ->].
    destruct n; split; reflexivity.
Qed.

(** X7.  With a heuristic flag other than 0 and 1, the search raises
    [TypeError] whenever the line of first legal moves from the first
    candidate reaches the horizon without meeting a terminal position;
    so [compute] yields nothing and raises [TypeError] as soon as the
    first legal move leads to a non-terminal position. *)
Theorem unknown_flag_raises_TypeError (rnd : Z -> nat) (s : State)
    (a : Action) (rest : list Action) :
  actions s = a :: rest ->
  (forall r depth,
      open_line (Z.to_nat (depth - 1)) (result s a) = true ->
      minimax_decision self r s depth = Raise TypeError)
  /\ (terminal_test (result s a) = false ->
      forall max_depth,
        1 <= max_depth ->
        compute self rnd s max_depth = ([], Some TypeError)).
Proof.
  intros Ha.
  assert (Hd : forall r depth,
             open_line (Z.to_nat (depth - 1)) (result s a) = true ->
             minimax_decision self r s depth = Raise TypeError).
  { intros r depth Hopen. unfold minimax_decision, root_search, min_value.
    rewrite Ha. cbn [root_loop].
    destruct (open_line_value _ _ NegInf PosInf Hopen) as [-> _].
    destruct (Z.to_nat (depth - 1)); reflexivity. }
  split; [exact Hd|].
  intros Ht max_depth Hm. unfold compute. rewrite range_cons by lia.
  cbn [compute_over]. rewrite Hd; [reflexivity|].
  cbn [Z.sub Z.add Z.opp Z.to_nat Z.pos_sub open_line]. rewrite Ht. reflexivity.
Qed.

End UnknownFlag.

(** ** Positions whose outcome is in sight *)

Section Decided.

Context {State Action Loc Cell : Type}.
Context {G : GameState State Action Loc Cell}.

Lemma min_loop_ext child1 child2 (s : State) :
  forall acts,
    (forall a, In a acts ->
               forall alpha beta,
                 child1 (result s a) alpha beta
                 = child2 (result s a) alpha beta) ->
    forall value alpha beta,
      min_loop child1 s acts value alpha beta
      = min_loop child2 s acts value alpha beta.
Proof.
  induction acts as [|a rest IH]; intros Hext value alpha beta;
    cbn [min_loop]; [reflexivity|].
  rewrite (Hext a (or_introl eq_refl)).
  destruct (child2 (result s a) alpha beta) as [[x|]|e];
    cbn [bind as_number]; try reflexivity.
  destruct (Score.leb _ _); [reflexivity|].
  apply IH. intros b Hb. apply Hext. right. exact Hb.
Qed.

Lemma max_loop_ext child1 child2 (s : State) :
  forall acts,
    (forall a, In a acts ->
               forall alpha beta,
                 child1 (result s a) alpha beta
                 = child2 (result s a) alpha beta) ->
    forall value alpha beta,
      max_loop child1 s acts value alpha beta
      = max_loop child2 s acts value alpha beta.
Proof.
  induction acts as [|a rest IH]; intros Hext value alpha beta;
    cbn [max_loop]; [reflexivity|].
  rewrite (Hext a (or_introl eq_refl)).
  destruct (child2 (result s a) alpha beta) as [[x|]|e];
    cbn [bind as_number]; try reflexivity.
  destruct (Score.leb _ _); [reflexivity|].
  apply IH. intros b Hb. apply Hext. right. exact Hb.
Qed.

Lemma root_loop_ext child1 child2 (s : State) :
  forall acts,
    (forall a, In a acts ->
               forall alpha beta,
                 child1 (result s a) alpha beta
                 = child2 (result s a) alpha beta) ->
    forall alpha beta best bm,
      root_loop child1 s acts alpha beta best bm
      = root_loop child2 s acts alpha beta best bm.
Proof.
  induction acts as [|a rest IH]; intros Hext alpha beta best bm;
    cbn [root_loop]; [reflexivity|].
  rewrite (Hext a (or_introl eq_refl)).
  destruct (child2 (result s a) alpha beta) as [[x|]|e];
    cbn [bind as_number]; try reflexivity.
  destruct (Score.ltb _ _); apply IH; intros b Hb; apply Hext; right;
    exact Hb.
Qed.

Variables self self' : AlphaBetaAgent.
Hypothesis Hagent : agent_player self = agent_player self'.

Lemma decided_value (n : nat) :
  forall s k alpha beta,
    decided n s = true ->
    min_value_at self (n + k) s alpha beta = min_value_at self' n s alpha beta
    /\ max_value_at self (n + k) s alpha beta
       = max_value_at self' n s alpha beta.
Proof.
  induction n as [|n IH]; intros s k alpha beta; cbn [decided Nat.add];
    destruct (terminal_test s) eqn:Ht; try discriminate; intros Hall.
  - destruct k;
      rewrite ?min_value_at_O, ?max_value_at_O, ?min_value_at_S,
        ?max_value_at_S, Ht, Hagent; split; reflexivity.
  - rewrite !min_value_at_S, !max_value_at_S, Ht, Hagent.
    split; reflexivity.
  - rewrite forallb_forall in Hall.
    rewrite !min_value_at_S, !max_value_at_S, Ht. split.
    + apply min_loop_ext. intros a Ha al be. apply IH. apply Hall. exact Ha.
    + apply max_loop_ext. intros a Ha al be. apply IH. apply Hall. exact Ha.
Qed.

(** X8.  Once the depth suffices to see the end of every line of play
    (a terminal position, or a position without a move), searching
    deeper returns the same values and the same decision, and the
    heuristic flag plays no part: two agents for the same player agree,
    whatever their flags. *)
Theorem decided_search_is_stable (s : State) (depth depth' : Z) :
  depth <= depth' ->
  (decided (Z.to_nat depth) s = true ->
   forall alpha beta,
     min_value self s alpha beta depth' = min_value self' s alpha beta depth
     /\ max_value self s alpha beta depth'
        = max_value self' s alpha beta depth)
  /\ (forallb (fun a => decided (Z.to_nat (depth - 1)) (result s a))
        (actions s) = true ->
      forall rnd,
        minimax_decision self rnd s depth'
        = minimax_decision self' rnd s depth).
Proof.
  intros Hle. split.
  - intros Hd alpha beta. unfold min_value, max_value.
    replace (Z.to_nat depth')
      with (Z.to_nat depth + (Z.to_nat depth' - Z.to_nat depth))%nat by lia.
    apply decided_value. exact Hd.
  - intros Hall rnd. rewrite forallb_forall in Hall.
    unfold minimax_decision, root_search. f_equal.
    apply root_loop_ext. intros a Ha alpha beta. unfold min_value.
    replace (Z.to_nat (depth' - 1))
      with (Z.to_nat (depth - 1)
            + (Z.to_nat (depth' - 1) - Z.to_nat (depth - 1)))%nat by lia.
    apply decided_value. apply Hall. exact Ha.
Qed.

End Decided.

(** ** More on the heuristic *)

Section Mobility.

Context {State Action Loc Cell : Type}.
Context {G : GameState State Action Loc Cell}.

Lemma len_nonneg {A : Type} (l : list A) : 0 <= len l.
Proof. unfold len. lia. Qed.

(** X10.  With an integer ply count on the 99-cell board the
    phase-adaptive heuristic scores offensively (agent mobility minus
    twice opponent mobility) up to ply 49 and defensively (twice agent
    mobility minus opponent mobility) from ply 50 on. *)
Theorem phase_switches_at_ply_50 (self : AlphaBetaAgent) (s : State)
    (ply : Z) :
  h_type self = 1 ->
  (ply_count s == inject_Z ply)%Q ->
  heuristic self s
  = Some (Fin (if ply <=? 49
               then len (liberties s (locs s (agent_player self)))
                    - 2 * len (liberties s (locs s (opponent_player self)))
               else 2 * len (liberties s (locs s (agent_player self)))
                    - len (liberties s (locs s (opponent_player self))))).
Proof.
  intros Hh Hp. unfold heuristic. rewrite Hh. cbn [Z.eqb Pos.eqb].
  destruct (Z.leb_spec ply 49) as [Hle|Hgt].
  - assert (E : Qlt_bool (ply_count s / inject_Z BOARD_SIZE) (1 # 2) = true).
    { apply Qlt_bool_iff. rewrite Hp.
      unfold Qlt, Qdiv, Qmult, Qinv, inject_Z, BOARD_SIZE. cbn. lia. }
    rewrite E. reflexivity.
  - assert (E : Qlt_bool (ply_count s / inject_Z BOARD_SIZE) (1 # 2) = false).
    { apply Qlt_bool_ge. rewrite Hp.
      unfold Qle, Qdiv, Qmult, Qinv, inject_Z, BOARD_SIZE. cbn. lia. }
    rewrite E. reflexivity.
Qed.

(** X11.  In either mode the heuristic returns a finite integer, never
    an infinity: at least minus twice the opponent's mobility and at
    most twice the agent's, and in the baseline mode between minus the
    opponent's mobility and the agent's. *)
Theorem heuristic_is_bounded (self : AlphaBetaAgent)
    (mode : Unpruned.heuristicMode) (s : State) :
  h_type self = Unpruned.flag mode ->
  exists z,
    heuristic self s = Some (Fin z)
    /\ - (2 * len (liberties s (locs s (opponent_player self)))) <= z
    /\ z <= 2 * len (liberties s (locs s (agent_player self)))
    /\ (mode = Unpruned.baseline ->
        - len (liberties s (locs s (opponent_player self))) <= z
        /\ z <= len (liberties s (locs s (agent_player self)))).
Proof.
  intros Hmode. unfold heuristic. rewrite Hmode.
  pose proof (len_nonneg (liberties s (locs s (agent_player self)))).
  pose proof (len_nonneg (liberties s (locs s (opponent_player self)))).
  destruct mode; cbn [Unpruned.flag Z.eqb Pos.eqb].
  - eexists. split; [reflexivity|]. lia.
  - destruct (Qlt_bool _ _); eexists; (split; [reflexivity|]);
      (repeat split; try lia; discriminate).
Qed.

(** X12.  Seen from the two sides of the same position, the baseline
    scores are opposite; the phase-adaptive scores are not: they add up
    to minus the total mobility in the first half of the game and to
    the total mobility in the second. *)
Theorem heuristic_from_both_sides (p q : player) (s : State) :
  (exists z,
      heuristic (init p q 0) s = Some (Fin z)
      /\ heuristic (init q p 0) s = Some (Fin (- z)))
  /\ (exists z z',
         heuristic (init p q 1) s = Some (Fin z)
         /\ heuristic (init q p 1) s = Some (Fin z')
         /\ z + z'
            = if Qlt_bool (ply_count s / inject_Z BOARD_SIZE) (1 # 2)
              then - (len (liberties s (locs s p))
                      + len (liberties s (locs s q)))
              else len (liberties s (locs s p))
                   + len (liberties s (locs s q))).
Proof.
  unfold heuristic. cbn [h_type agent_player opponent_player init Z.eqb Pos.eqb].
  split.
  - eexists. split; [reflexivity|]. do 2 f_equal. lia.
  - destruct (Qlt_bool _ _); do 2 eexists;
      (split; [reflexivity|]); (split; [reflexivity|]); lia.
Qed.

End Mobility.

(** ** More on the root decision *)

Section Wins.

Context {State Action Loc Cell : Type}.
Context {G : GameState State Action Loc Cell}.
Variable self : AlphaBetaAgent.
Variable mode : Unpruned.heuristicMode.
Hypothesis Hmode : h_type self = Unpruned.flag mode.

Lemma bestOver_ge (f : Action -> score) (moves : list Action) :
  forall best a,
    In a moves -> Score.le (f a) (Unpruned.bestOver f moves best).
Proof.
  unfold Unpruned.bestOver.
  induction moves as [|x rest IH]; intros best a; [intros []|].
  cbn [fold_left]. intros [<-|Hin].
  - eapply ScoreFacts.le_trans; [|apply fold_max_ge].
    clear. generalize (f x). intros y. score_cases.
  - apply IH. exact Hin.
Qed.

(** Some candidate scores above minus infinity: the earliest of best
    score is returned. *)
Lemma decision_above (s : State) (depth : Z) (a : Action) :
  In a (actions s) ->
  Score.lt NegInf (Unpruned.moveScore self mode s depth a) ->
  exists b,
    earliest_best (Unpruned.moveScore self mode s depth) (actions s) b
    /\ Unpruned.moveScore self mode s depth b
       = Unpruned.searchScore self mode s depth
    /\ forall rnd, minimax_decision self rnd s depth = Ok b.
Proof.
  intros Hin Hlt.
  destruct (decision_cases self mode Hmode s depth)
    as [(_ & _ & Hall & _) | (b & _ & _ & He & Hd)].
  - rewrite (Hall a Hin) in Hlt. contradiction.
  - exists b. split; [exact He|]. split; [|exact Hd].
    destruct He as (pre & post & _ & Hv & _). exact Hv.
Qed.

Lemma minValue_terminal (n : nat) (s : State) :
  terminal_test s = true ->
  Unpruned.minValue self mode n s = utility s (agent_player self).
Proof. intros Ht. destruct n; cbn [Unpruned.minValue]; rewrite Ht; reflexivity. Qed.

Lemma minValue_no_move (n : nat) (s : State) :
  terminal_test s = false -> actions s = [] ->
  Unpruned.minValue self mode (S n) s = PosInf.
Proof.
  intros Ht Ha. cbn [Unpruned.minValue]. rewrite Ht, Ha. reflexivity.
Qed.

(** X14.  In either heuristic mode, when some legal move ends the game
    at once with utility plus infinity for the agent, or (at a depth of
    at least 2) leaves a non-terminal position in which the side to
    move has no legal move, [minimax_decision] returns, whatever the
    draw, a legal move whose full minimax score is plus infinity: the
    earliest such move. *)
Theorem immediate_win_is_taken (s : State) (depth : Z) (a : Action) :
  In a (actions s) ->
  (terminal_test (result s a) = true
   /\ utility (result s a) (agent_player self) = PosInf)
  \/ (2 <= depth
      /\ terminal_test (result s a) = false
      /\ actions (result s a) = []) ->
  exists b,
    (forall rnd, minimax_decision self rnd s depth = Ok b)
    /\ In b (actions s)
    /\ Unpruned.moveScore self mode s depth b = PosInf
    /\ earliest_best (Unpruned.moveScore self mode s depth) (actions s) b.
Proof.
  intros Hin Hcase.
  assert (Ha : Unpruned.moveScore self mode s depth a = PosInf).
  { unfold Unpruned.moveScore. destruct Hcase as [[Ht Hu]|(Hd & Ht & Hno)].
    - rewrite minValue_terminal by exact Ht. exact Hu.
    - replace (Z.to_nat (depth - 1)) with (S (Z.to_nat (depth - 2))) by lia.
      apply minValue_no_move; assumption. }
  destruct (@decision_above s depth a Hin) as (b & He & Hv & Hd).
  { rewrite Ha. exact I. }
  exists b. split; [exact Hd|]. split; [eapply earliest_best_In; exact He|].
  split; [|exact He].
  pose proof (bestOver_ge (Unpruned.moveScore self mode s depth) (actions s)
                NegInf a Hin) as Hge.
  fold (Unpruned.searchScore self mode s depth) in Hge.
  rewrite <- Hv, Ha in Hge. revert Hge.
  generalize (Unpruned.moveScore self mode s depth b). clear.
  intros y Hy. score_cases.
Qed.

(** X13.  In either heuristic mode, a search of depth at most 1 falls
    back on the random draw only if every legal move ends the game at
    once with utility minus infinity: if some legal move leads to a
    non-terminal position, or to a terminal one of another utility, the
    earliest move of best score is returned whatever the draw. *)
Theorem shallow_search_needs_no_draw (s : State) (depth : Z) (a : Action) :
  depth <= 1 ->
  In a (actions s) ->
  terminal_test (result s a) = false
  \/ utility (result s a) (agent_player self) <> NegInf ->
  exists b,
    earliest_best (Unpruned.moveScore self mode s depth) (actions s) b
    /\ forall rnd, minimax_decision self rnd s depth = Ok b.
Proof.
  intros Hd Hin Hcase.
  destruct (@decision_above s depth a Hin) as (b & He & _ & Hdec).
  - unfold Unpruned.moveScore.
    replace (Z.to_nat (depth - 1)) with O by lia.
    cbn [Unpruned.minValue].
    destruct (terminal_test (result s a)) eqn:Ht.
    + destruct Hcase as [Hc|Hc]; [discriminate|].
      destruct (utility (result s a) (agent_player self)); cbn; auto.
    + unfold Unpruned.evaluate. destruct mode; [exact I|].
      destruct (Qlt_bool _ _); exact I.
  - exists b. split; assumption.
Qed.

End Wins.

(** ** The player *)

Section Player.

Context {State Action Loc Cell : Type}.
Context {G : GameState State Action Loc Cell}.

(** X9.  From a position with a legal move, [get_action] raises
    nothing and puts exactly 100 moves on the queue, each a legal move;
    put number [i], counted from 0, is the decision of the
    phase-adaptive agent for [player_id] at depth [1 + i].  From a
    position without a legal move it puts nothing and raises
    [IndexError]. *)
Theorem get_action_puts_a_move_per_depth (player_id : player)
    (rnd : Z -> nat) (state : State) :
  (actions state <> [] ->
   exists moves,
     get_action player_id rnd state = (moves, None)
     /\ length moves = 100%nat
     /\ (forall a, In a moves -> In a (actions state))
     /\ forall i move,
          nth_error moves i = Some move ->
          minimax_decision (init player_id (other player_id) 1)
            (rnd (1 + Z.of_nat i)) state (1 + Z.of_nat i)
          = Ok move)
  /\ (actions state = [] ->
      get_action player_id rnd state = ([], Some IndexError)).
Proof.
  unfold get_action, compute. split.
  - intros Hne.
    set (player := init player_id (other player_id) 1).
    assert (Hmode : h_type player = Unpruned.flag Unpruned.phase_adaptive)
      by reflexivity.
    destruct (compute_over_total player rnd state
                (fun depth r =>
                   decision_total player Unpruned.phase_adaptive Hmode
                     state depth r Hne)
                (range 1 (100 + 1)))
      as (moves & E & Hlen & Hnth).
    rewrite range_length in Hlen.
    exists moves. split; [exact E|]. split; [exact Hlen|]. split.
    + intros a Ha.
      pose proof (compute_over_legal player rnd state (range 1 (100 + 1)))
        as Hall.
      rewrite E, Forall_forall in Hall. apply Hall. exact Ha.
    + intros i move Hi.
      assert (Hlt : (i < Z.to_nat (100 + 1 - 1))%nat).
      { rewrite <- Hlen. apply nth_error_Some. congruence. }
      apply (Hnth i); [|exact Hi]. apply range_nth_error. exact Hlt.
  - intros Ha. rewrite range_cons by lia. cbn [compute_over].
    unfold minimax_decision, root_search. rewrite Ha. reflexivity.
Qed.

End Player.

(** ** The further theorems on scripted positions *)

Lemma pruned_value_bounds_witness :
  h_type Scripted.benchmark = Unpruned.flag Unpruned.baseline
  /\ exists v,
       min_value Scripted.benchmark Scripted.pruned (Fin 4) (Fin 6) 2
       = Ok (Some v)
       /\ (Score.lt (Fin 4) v -> Score.lt v (Fin 6) ->
           v = Unpruned.minValue Scripted.benchmark Unpruned.baseline
                 (Z.to_nat 2) Scripted.pruned).
Proof.
  split; [reflexivity|].
  destruct (pruned_value_bounds Scripted.benchmark Unpruned.baseline
              Scripted.pruned (Fin 4) (Fin 6) 2 eq_refl)
    as [(v & E & _ & _ & H) _].
  exists v. split; [exact E | exact H].
Defined.

Lemma full_window_exact_witness :
  h_type Scripted.custom = Unpruned.flag Unpruned.phase_adaptive
  /\ min_value Scripted.custom Scripted.pruned NegInf PosInf 2
     = Ok (Some (Unpruned.minValue Scripted.custom Unpruned.phase_adaptive
                   (Z.to_nat 2) Scripted.pruned))
  /\ max_value Scripted.custom Scripted.pruned NegInf PosInf 2
     = Ok (Some (Unpruned.maxValue Scripted.custom Unpruned.phase_adaptive
                   (Z.to_nat 2) Scripted.pruned)).
Proof.
  split; [reflexivity|].
  exact (full_window_exact Scripted.custom Unpruned.phase_adaptive
           Scripted.pruned 2 eq_refl).
Defined.

Lemma no_move_raises_IndexError_witness :
  actions Scripted.stuck = []
  /\ minimax_decision Scripted.unchecked 3 Scripted.stuck 4 = Raise IndexError
  /\ 1 <= 2
  /\ compute Scripted.unchecked (fun _ => 0%nat) Scripted.stuck 2
     = ([], Some IndexError).
Proof.
  assert (Ha : actions Scripted.stuck = []) by reflexivity.
  destruct (no_move_raises_IndexError Scripted.unchecked (fun _ => 0%nat)
              Scripted.stuck Ha) as [H1 H2].
  split; [reflexivity|]. split; [apply H1|]. split; [lia|].
  apply H2. lia.
Defined.

Lemma compute_yields_at_most_witness :
  -1 <= 0
  /\ compute Scripted.benchmark (fun _ => 0%nat) Scripted.lost (-1)
     = ([], None).
Proof.
  split; [lia|].
  apply (compute_yields_at_most Scripted.benchmark (fun _ => 0%nat)
           Scripted.lost (-1)).
  lia.
Defined.

Lemma compute_yields_legal_moves_witness :
  In 2%nat (fst (compute Scripted.benchmark (fun _ => 0%nat)
                   Scripted.pruned 3))
  /\ In 2%nat (actions Scripted.pruned).
Proof.
  assert (H : In 2%nat (fst (compute Scripted.benchmark (fun _ => 0%nat)
                               Scripted.pruned 3))).
  { vm_compute. right. left. reflexivity. }
  split; [exact H|].
  exact (compute_yields_legal_moves Scripted.benchmark (fun _ => 0%nat)
           Scripted.pruned 3 2%nat H).
Defined.

Lemma compute_deeper_extends_witness :
  2 <= 3
  /\ (exists more,
         fst (compute Scripted.benchmark (fun _ => 0%nat) Scripted.pruned 3)
         = fst (compute Scripted.benchmark (fun _ => 0%nat) Scripted.pruned 2)
           ++ more)
  /\ snd (compute Scripted.benchmark (fun _ => 0%nat) Scripted.lost 2)
     = Some IndexError
  /\ compute Scripted.benchmark (fun _ => 0%nat) Scripted.lost 3
     = compute Scripted.benchmark (fun _ => 0%nat) Scripted.lost 2.
Proof.
  assert (H23 : 2 <= 3) by lia.
  split; [exact H23|]. split.
  - exact (proj1 (compute_deeper_extends Scripted.benchmark (fun _ => 0%nat)
                    Scripted.pruned H23)).
  - split; [reflexivity|].
    apply (proj2 (compute_deeper_extends Scripted.benchmark (fun _ => 0%nat)
                    Scripted.lost H23) IndexError).
    reflexivity.
Defined.

Lemma unknown_flag_raises_TypeError_witness :
  h_type Scripted.unchecked <> 0
  /\ h_type Scripted.unchecked <> 1
  /\ actions Scripted.pruned = [0; 1; 2]%nat
  /\ open_line (Z.to_nat (2 - 1)) (result Scripted.pruned 0%nat) = true
  /\ minimax_decision Scripted.unchecked 0 Scripted.pruned 2 = Raise TypeError
  /\ terminal_test (result Scripted.pruned 0%nat) = false
  /\ compute Scripted.unchecked (fun _ => 0%nat) Scripted.pruned 5
     = ([], Some TypeError).
Proof.
  assert (H0 : h_type Scripted.unchecked <> 0) by discriminate.
  assert (H1 : h_type Scripted.unchecked <> 1) by discriminate.
  assert (Ha : actions Scripted.pruned = [0; 1; 2]%nat) by reflexivity.
  destruct (@unknown_flag_raises_TypeError _ _ _ _ _ Scripted.unchecked
              H0 H1 (fun _ => 0%nat) Scripted.pruned 0%nat [1; 2]%nat Ha)
    as [Hd Hc].
  split; [exact H0|]. split; [exact H1|]. split; [reflexivity|].
  split; [reflexivity|]. split; [apply Hd; reflexivity|].
  split; [reflexivity|]. apply Hc; [reflexivity | lia].
Defined.

Lemma decided_search_is_stable_witness :
  agent_player Scripted.unchecked = agent_player Scripted.benchmark
  /\ 2 <= 5
  /\ decided (Z.to_nat 2) Endings.endgame = true
  /\ min_value Scripted.unchecked Endings.endgame NegInf PosInf 5
     = min_value Scripted.benchmark Endings.endgame NegInf PosInf 2
  /\ forallb (fun a => decided (Z.to_nat (2 - 1)) (result Endings.endgame a))
       (actions Endings.endgame) = true
  /\ minimax_decision Scripted.unchecked 1 Endings.endgame 5
     = minimax_decision Scripted.benchmark 1 Endings.endgame 2.
Proof.
  assert (H25 : 2 <= 5) by lia.
  assert (Hp : agent_player Scripted.unchecked
               = agent_player Scripted.benchmark) by reflexivity.
  destruct (@decided_search_is_stable _ _ _ _ _ Scripted.unchecked
              Scripted.benchmark Hp Endings.endgame 2 5 H25) as [Hv Hd].
  split; [reflexivity|]. split; [exact H25|]. split; [reflexivity|].
  split; [apply Hv; reflexivity|]. split; [reflexivity|].
  apply Hd. reflexivity.
Defined.

Lemma get_action_puts_a_move_per_depth_witness :
  actions Scripted.pruned <> []
  /\ (exists moves,
         get_action Player1 (fun _ => 0%nat) Scripted.pruned = (moves, None)
         /\ length moves = 100%nat
         /\ (forall a, In a moves -> In a (actions Scripted.pruned))
         /\ forall i move,
              nth_error moves i = Some move ->
              minimax_decision (init Player1 (other Player1) 1) 0
                Scripted.pruned (1 + Z.of_nat i)
              = Ok move)
  /\ actions Scripted.lost = []
  /\ get_action Player0 (fun _ => 0%nat) Scripted.lost
     = ([], Some IndexError).
Proof.
  split; [discriminate|]. split.
  - apply (proj1 (get_action_puts_a_move_per_depth Player1 (fun _ => 0%nat)
                    Scripted.pruned)).
    discriminate.
  - split; [reflexivity|].
    apply (proj2 (get_action_puts_a_move_per_depth Player0 (fun _ => 0%nat)
                    Scripted.lost)).
    reflexivity.
Defined.

Lemma phase_switches_at_ply_50_witness :
  h_type Scripted.custom = 1
  /\ (ply_count (Scripted.leaf 5 3 49) == inject_Z 49)%Q
  /\ (ply_count (Scripted.leaf 5 3 50) == inject_Z 50)%Q
  /\ heuristic Scripted.custom (Scripted.leaf 5 3 49) = Some (Fin (-1))
  /\ heuristic Scripted.custom (Scripted.leaf 5 3 50) = Some (Fin 7).
Proof.
  assert (Hh : h_type Scripted.custom = 1) by reflexivity.
  assert (H49 : (ply_count (Scripted.leaf 5 3 49) == inject_Z 49)%Q)
    by reflexivity.
  assert (H50 : (ply_count (Scripted.leaf 5 3 50) == inject_Z 50)%Q)
    by reflexivity.
  split; [exact Hh|]. split; [exact H49|]. split; [exact H50|]. split.
  - exact (phase_switches_at_ply_50 Scripted.custom (Scripted.leaf 5 3 49)
             Hh H49).
  - exact (phase_switches_at_ply_50 Scripted.custom (Scripted.leaf 5 3 50)
             Hh H50).
Defined.

Lemma heuristic_is_bounded_witness :
  h_type Scripted.benchmark = Unpruned.flag Unpruned.baseline
  /\ exists z,
       heuristic Scripted.benchmark Scripted.lost = Some (Fin z)
       /\ - (2 * 3) <= z
       /\ z <= 2 * 0
       /\ (Unpruned.baseline = Unpruned.baseline -> - 3 <= z /\ z <= 0).
Proof.
  split; [reflexivity|].
  exact (heuristic_is_bounded Scripted.benchmark Unpruned.baseline
           Scripted.lost eq_refl).
Defined.

Lemma shallow_search_needs_no_draw_witness :
  h_type Scripted.benchmark = Unpruned.flag Unpruned.baseline
  /\ 1 <= 1
  /\ In 0%nat (actions Scripted.tied)
  /\ terminal_test (result Scripted.tied 0%nat) = false
  /\ exists b,
       earliest_best
         (Unpruned.moveScore Scripted.benchmark Unpruned.baseline
            Scripted.tied 1)
         (actions Scripted.tied) b
       /\ forall rnd,
            minimax_decision Scripted.benchmark rnd Scripted.tied 1 = Ok b.
Proof.
  assert (H11 : 1 <= 1) by lia.
  assert (Hin : In 0%nat (actions Scripted.tied)) by (left; reflexivity).
  split; [reflexivity|]. split; [exact H11|]. split; [exact Hin|].
  split; [reflexivity|].
  apply (@shallow_search_needs_no_draw _ _ _ _ _ Scripted.benchmark
           Unpruned.baseline eq_refl Scripted.tied 1 0%nat H11 Hin).
  left. reflexivity.
Defined.

Lemma immediate_win_is_taken_witness :
  h_type Scripted.custom = Unpruned.flag Unpruned.phase_adaptive
  /\ In 1%nat (actions Endings.winning)
  /\ terminal_test (result Endings.winning 1%nat) = true
  /\ utility (result Endings.winning 1%nat) (agent_player Scripted.custom) = PosInf
  /\ (exists b,
         (forall rnd, minimax_decision Scripted.custom rnd Endings.winning 1 = Ok b)
         /\ In b (actions Endings.winning)
         /\ Unpruned.moveScore Scripted.custom Unpruned.phase_adaptive
              Endings.winning 1 b = PosInf
         /\ earliest_best
              (Unpruned.moveScore Scripted.custom Unpruned.phase_adaptive
                 Endings.winning 1)
              (actions Endings.winning) b)
  /\ In 0%nat (actions Endings.trapping)
  /\ 2 <= 2
  /\ terminal_test (result Endings.trapping 0%nat) = false
  /\ actions (result Endings.trapping 0%nat) = []
  /\ exists b,
       (forall rnd, minimax_decision Scripted.custom rnd Endings.trapping 2 = Ok b)
       /\ In b (actions Endings.trapping)
       /\ Unpruned.moveScore Scripted.custom Unpruned.phase_adaptive
            Endings.trapping 2 b = PosInf
       /\ earliest_best
            (Unpruned.moveScore Scripted.custom Unpruned.phase_adaptive
               Endings.trapping 2)
            (actions Endings.trapping) b.
Proof.
  assert (H1 : In 1%nat (actions Endings.winning)) by (right; left; reflexivity).
  assert (H0 : In 0%nat (actions Endings.trapping)) by (left; reflexivity).
  split; [reflexivity|]. split; [exact H1|]. split; [reflexivity|].
  split; [reflexivity|]. split.
  - apply (@immediate_win_is_taken _ _ _ _ _ Scripted.custom
             Unpruned.phase_adaptive eq_refl Endings.winning 1 1%nat H1).
    left. split; reflexivity.
  - split; [exact H0|]. split; [lia|]. split; [reflexivity|].
    split; [reflexivity|].
    apply (@immediate_win_is_taken _ _ _ _ _ Scripted.custom
             Unpruned.phase_adaptive eq_refl Endings.trapping 2 0%nat H0).
    right. split; [lia|]. split; reflexivity.
Defined.
